(** * yongo-validation: the per-field evaluation routine and its registry

    A shallow embedding of [src/field-options.ts] (class [FieldOptions]) and
    of the [MinLength] property decorator, together with the properties the
    specification states about them.

    Conventions.
    - JavaScript values are the inductive [JsValue]; objects are references
      into a world that the embedding never inspects.
    - A validator is an object behind the [BaseValidator] interface.  Each
      member is a computation over the world: it may read and write it.  A
      member returns (it does not throw), and the [FieldOptions] object that
      holds the validator is not part of the world it can write.
    - Methods of [FieldOptions] are computations over a [Heap] holding the
      receiver ([this]), the world, and the log of the calls made so far.
    - The classes the two source files import but that are not part of them
      (the validators, [ValidationManager], [ModelValidator]) are modelled
      from the specification; each such definition says so. *)

From Stdlib Require Import ZArith NArith String Ascii List Bool Lia.
From stdpp Require Import base option list strings pretty gmap relations.
From stdpp Require Import sorting.

Set Implicit Arguments.
Set Default Proof Using "Type".
Local Open Scope string_scope.
Local Open Scope list_scope.
Local Open Scope nat_scope.

(** ** JavaScript values *)

Module Js.

(** An IEEE-754 double, as far as this code looks at it: a NaN, an
    infinity, or the dyadic number [(-1)^negative * mantissa * 2^exponent].
    Both zeros are a [Finite] with mantissa 0. *)
Inductive JsNumber : Type :=
| NaN
| Infinity (negative : bool)
| Finite (negative : bool) (mantissa : N) (exponent : Z).

(** Object identity. *)
Definition Ref := nat.

Inductive JsValue : Type :=
| JsUndefined
| JsNull
| JsBoolean (b : bool)
| JsNum (n : JsNumber)
| JsBigInt (z : Z)
| JsString (s : string)
| JsSymbol (id : nat)
| JsObject (ref : Ref).

(** ECMAScript ToBoolean: [undefined], [null], [false], [+0], [-0], [NaN],
    [0n] and the empty string are falsy, everything else is truthy. *)
Definition toBoolean (v : JsValue) : bool :=
  match v with
  | JsUndefined => false
  | JsNull => false
  | JsBoolean b => b
  | JsNum NaN => false
  | JsNum (Infinity _) => true
  | JsNum (Finite _ m _) => negb (N.eqb m 0)
  | JsBigInt z => negb (Z.eqb z 0)
  | JsString s => negb (String.eqb s "")
  | JsSymbol _ => true
  | JsObject _ => true
  end.

(** The number denoted by an integer literal. *)
Definition ofZ (z : Z) : JsNumber :=
  Finite (Z.ltb z 0) (Z.abs_N z) 0.

End Js.
Export Js.

(** ** Computations

    A computation over a state [S] ends normally with a result, or throws
    with the state reached at the throw, or runs out of the fuel that the
    embedding of a loop is given. *)

Inductive Error : Type :=
| TypeError
| ConfigurationError (what : string).

Inductive Outcome (S A : Type) : Type :=
| Done (a : A) (s : S)
| Threw (e : Error) (s : S)
| OutOfFuel.
Arguments Done {S A} a s.
Arguments Threw {S A} e s.
Arguments OutOfFuel {S A}.

Definition Comp (S A : Type) : Type := S -> Outcome S A.

Definition ret {S A} (a : A) : Comp S A := fun s => Done a s.

Definition bind {S A B} (c : Comp S A) (k : A -> Comp S B) : Comp S B :=
  fun s =>
    match c s with
    | Done a s' => k a s'
    | Threw e s' => Threw e s'
    | OutOfFuel => OutOfFuel
    end.

Definition throw {S A} (e : Error) : Comp S A := fun s => Threw e s.

Definition outOfFuel {S A} : Comp S A := fun _ => OutOfFuel.

Notation "'let!' x ':=' c 'in' k" := (bind c (fun x => k))
  (at level 10, x name, c at level 100, k at level 200).

(** ** The validator interface *)

Section Validation.

(** Everything a validator can read or write: the objects behind
    references (the model among them), closures' variables, counters. *)
Context {World : Type}.

Definition Effect (A : Type) : Type := World -> A * World.

(** Modelled from the spec: the interface [validators/base-validator] (not
    under src/) that [field-options.ts] imports, "capability set {isValid(value,
    model) -> bool, getMessage(fieldName, value) -> string,
    validatesEmptyValue() -> bool, hasCustomMessage -> bool,
    getCustomMessage() -> string}".  [hasCustomMessage] is read as a property,
    the other four are called. *)
Record BaseValidator : Type := {
  validatesEmptyValue : Effect bool;
  isValid : JsValue -> JsValue -> Effect bool;
  hasCustomMessage : Effect bool;
  getCustomMessage : Effect string;
  getMessage : string -> JsValue -> Effect string
}.

(** ** FieldOptions *)

(** The two private fields of the class. *)
Record FieldOptions : Type := {
  fieldName : string;
  validators : list BaseValidator
}.

(** What [validateValue] does to a validator, in program order.  The index
    is the loop counter [i]. *)
Inductive Event : Type :=
| EvValidatesEmptyValue (i : nat) (result : bool)
| EvIsValid (i : nat) (value model : JsValue) (result : bool)
| EvHasCustomMessage (i : nat) (result : bool)
| EvGetCustomMessage (i : nat) (result : string)
| EvGetMessage (i : nat) (name : string) (value : JsValue) (result : string)
| EvPush (i : nat) (message : string).

Record Heap : Type := {
  this : FieldOptions;
  world : World;
  calls : list Event
}.

Definition Method (A : Type) : Type := Comp Heap A.

(** [this.fieldName] *)
Definition readFieldName : Method string :=
  fun h => Done (fieldName (this h)) h.

(** [this.validators] *)
Definition readValidators : Method (list BaseValidator) :=
  fun h => Done (validators (this h)) h.

(** [this.fieldName = name] *)
Definition writeFieldName (name : string) : Method unit :=
  fun h => Done tt {| this := {| fieldName := name;
                                 validators := validators (this h) |};
                      world := world h; calls := calls h |}.

(** [this.validators.push(validator)] *)
Definition pushValidator (validator : BaseValidator) : Method unit :=
  fun h => Done tt {| this := {| fieldName := fieldName (this h);
                                 validators := validators (this h) ++ [validator] |};
                      world := world h; calls := calls h |}.

(** A call of a validator member: run it on the world, log it. *)
Definition invoke {A} (member : Effect A) (ev : A -> Event) : Method A :=
  fun h =>
    let '(a, w) := member (world h) in
    Done a {| this := this h; world := w; calls := calls h ++ [ev a] |}.

(** [errors.push(message)] in turn [i] of the loop, as far as the log goes;
    the array itself is the local [errors]. *)
Definition logPush (i : nat) (message : string) : Method unit :=
  fun h => Done tt {| this := this h; world := world h;
                      calls := calls h ++ [EvPush i message] |}.

(** The field initialisers of the class. *)
Definition new_FieldOptions : FieldOptions :=
  {| fieldName := "Field"; validators := [] |}.

Definition getFieldName : Method string := readFieldName.

Definition setFieldName (name : string) : Method unit := writeFieldName name.

Definition addValidator (validator : BaseValidator) : Method unit :=
  pushValidator validator.

Definition getValidators : Method (list BaseValidator) := readValidators.

(** The [for] loop of [validateValue], from the test [i < length] on.
    [errors], [fieldName] and [isEmpty] are the locals of the method. *)
Fixpoint validateValue_loop (fuel : nat) (value model : JsValue)
    (fieldName : string) (isEmpty : bool)
    (i : nat) (errors : list string) : Method (list string) :=
  match fuel with
  | O => outOfFuel
  | S fuel =>
      let! vs := readValidators in
      if (i <? length vs)%nat then
        let! validator :=
          match vs !! i with
          | Some v => ret v
          | None => throw TypeError
          end in
        let! emptyOk := invoke (validatesEmptyValue validator)
                               (EvValidatesEmptyValue i) in
        if negb emptyOk && isEmpty then
          validateValue_loop fuel value model fieldName isEmpty (i + 1) errors
        else
          let! ok := invoke (isValid validator value model)
                            (EvIsValid i value model) in
          if negb ok then
            let! custom := invoke (hasCustomMessage validator)
                                  (EvHasCustomMessage i) in
            let! message :=
              if custom
              then invoke (getCustomMessage validator) (EvGetCustomMessage i)
              else invoke (getMessage validator fieldName value)
                          (EvGetMessage i fieldName value) in
            let! _ := logPush i message in
            validateValue_loop fuel value model fieldName isEmpty (i + 1)
                               (errors ++ [message])
          else
            validateValue_loop fuel value model fieldName isEmpty (i + 1) errors
      else ret errors
  end.

(** The fuel is one test of [i < length] more than there are validators;
    it is never used up, as the properties of the loop show. *)
Definition validateValue (value model : JsValue) : Method (list string) :=
  let errors : list string := [] in
  let! fieldName := readFieldName in
  let isEmpty := negb (toBoolean value) in
  let! vs := readValidators in
  validateValue_loop (S (length vs)) value model fieldName isEmpty 0 errors.

(** ** One validator at a time

    Steps 3 and 4 of the specification of [validateValue], for the
    validator at index [i]: it is skipped, or it is evaluated and passes,
    or it is evaluated, fails and reports one message.  The result is the
    message if there is one, the events of the step and the world after
    it. *)
Definition judge (name : string) (value model : JsValue) (i : nat)
    (v : BaseValidator) (w : World) : option string * list Event * World :=
  let '(emptyOk, w1) := validatesEmptyValue v w in
  let e1 := EvValidatesEmptyValue i emptyOk in
  if negb emptyOk && negb (toBoolean value) then (None, [e1], w1)
  else
    let '(ok, w2) := isValid v value model w1 in
    let e2 := EvIsValid i value model ok in
    if ok then (None, [e1; e2], w2)
    else
      let '(custom, w3) := hasCustomMessage v w2 in
      let e3 := EvHasCustomMessage i custom in
      if custom then
        let '(m, w4) := getCustomMessage v w3 in
        (Some m, [e1; e2; e3; EvGetCustomMessage i m; EvPush i m], w4)
      else
        let '(m, w4) := getMessage v name value w3 in
        (Some m, [e1; e2; e3; EvGetMessage i name value m; EvPush i m], w4).

(** The validators of a chain in registration order, each judged in the
    world its predecessors left. *)
Fixpoint judgeAll (name : string) (value model : JsValue) (i : nat)
    (vs : list BaseValidator) (w : World)
    : list (option string) * list Event * World :=
  match vs with
  | [] => ([], [], w)
  | v :: vs' =>
      let '(m, evs, w1) := judge name value model i v w in
      let '(ms, evs', w2) := judgeAll name value model (S i) vs' w1 in
      (m :: ms, evs ++ evs', w2)
  end.

(** The messages of the [errors.push] events of a log. *)
Definition pushed (evs : list Event) : list string :=
  omap (fun ev => match ev with EvPush _ m => Some m | _ => None end) evs.

(** The turns of the loop in which [errors.push] ran, in program order. *)
Definition pushIndices (evs : list Event) : list nat :=
  omap (fun ev => match ev with EvPush i _ => Some i | _ => None end) evs.

(** The turns of the loop in which [isValid] returned false, in program
    order. *)
Definition failureIndices (evs : list Event) : list nat :=
  omap (fun ev =>
          match ev with EvIsValid i _ _ false => Some i | _ => None end) evs.

(** The index an event carries. *)
Definition indexOf (ev : Event) : nat :=
  match ev with
  | EvValidatesEmptyValue i _ | EvIsValid i _ _ _ | EvHasCustomMessage i _
  | EvGetCustomMessage i _ | EvGetMessage i _ _ _ | EvPush i _ => i
  end.

(** The world in which the validator at position [k] of the chain [vs]
    is judged, when the chain starts at index [i] in the world [w]. *)
Fixpoint worldBefore (name : string) (value model : JsValue) (i : nat)
    (vs : list BaseValidator) (w : World) (k : nat) : World :=
  match k, vs with
  | S k', v :: vs' =>
      worldBefore name value model (S i) vs'
                  (judge name value model i v w).2 k'
  | _, _ => w
  end.

(** The four ways a validator can fare: the events it leaves and the
    message it reports. *)
Inductive Judged (name : string) (value model : JsValue) (i : nat)
    : list Event -> option string -> Prop :=
| JudgedSkipped :
    toBoolean value = false ->
    Judged name value model i [EvValidatesEmptyValue i false] None
| JudgedPassed emptyOk :
    negb emptyOk && negb (toBoolean value) = false ->
    Judged name value model i
           [EvValidatesEmptyValue i emptyOk; EvIsValid i value model true]
           None
| JudgedCustom emptyOk m :
    negb emptyOk && negb (toBoolean value) = false ->
    Judged name value model i
           [EvValidatesEmptyValue i emptyOk; EvIsValid i value model false;
            EvHasCustomMessage i true; EvGetCustomMessage i m; EvPush i m]
           (Some m)
| JudgedDefault emptyOk m :
    negb emptyOk && negb (toBoolean value) = false ->
    Judged name value model i
           [EvValidatesEmptyValue i emptyOk; EvIsValid i value model false;
            EvHasCustomMessage i false; EvGetMessage i name value m;
            EvPush i m]
           (Some m).

(** One slot per validator of the chain, in registration order: the
    message the validator reports, if it is evaluated and fails. *)
Definition verdicts (name : string) (value model : JsValue)
    (vs : list BaseValidator) (w : World) : list (option string) :=
  imap (fun k v =>
          (judge name value model k v
                 (worldBefore name value model 0 vs w k)).1.1) vs.

(** The events a run of [validateValue] adds to the log. *)
Definition trace (value model : JsValue) (h : Heap) : list Event :=
  (judgeAll (fieldName (this h)) value model 0 (validators (this h))
            (world h)).1.2.

(** ** Contracts a validator may meet *)

(** The results of the five members do not depend on the world they run
    in: the same arguments always give the same answer. *)
Definition stateless (v : BaseValidator) : Prop :=
  (forall w w', (validatesEmptyValue v w).1 = (validatesEmptyValue v w').1)
  /\ (forall value model w w',
        (isValid v value model w).1 = (isValid v value model w').1)
  /\ (forall w w', (hasCustomMessage v w).1 = (hasCustomMessage v w').1)
  /\ (forall w w', (getCustomMessage v w).1 = (getCustomMessage v w').1)
  /\ (forall name value w w',
        (getMessage v name value w).1 = (getMessage v name value w').1).

(** No member changes what [obs] sees of the world. *)
Definition preserves {A} (obs : World -> A) (v : BaseValidator) : Prop :=
  (forall w, obs (validatesEmptyValue v w).2 = obs w)
  /\ (forall value model w, obs (isValid v value model w).2 = obs w)
  /\ (forall w, obs (hasCustomMessage v w).2 = obs w)
  /\ (forall w, obs (getCustomMessage v w).2 = obs w)
  /\ (forall name value w, obs (getMessage v name value w).2 = obs w).


(** [validatesEmptyValue()] is false, as it is by default. *)
Definition neverValidatesEmpty (v : BaseValidator) : Prop :=
  forall w, (validatesEmptyValue v w).1 = false.

(** ** Calls on one FieldOptions object *)

Inductive Call : Type :=
| CallGetFieldName
| CallSetFieldName (name : string)
| CallAddValidator (validator : BaseValidator)
| CallGetValidators
| CallValidateValue (value model : JsValue).

Definition perform (c : Call) : Method unit :=
  match c with
  | CallGetFieldName => let! _ := getFieldName in ret tt
  | CallSetFieldName name => setFieldName name
  | CallAddValidator validator => addValidator validator
  | CallGetValidators => let! _ := getValidators in ret tt
  | CallValidateValue value model =>
      let! _ := validateValue value model in ret tt
  end.

Fixpoint performAll (cs : list Call) : Method unit :=
  match cs with
  | [] => ret tt
  | c :: cs' => let! _ := perform c in performAll cs'
  end.

(** The argument of the last [setFieldName] of a call sequence. *)
Fixpoint lastSetFieldName (cs : list Call) : option string :=
  match cs with
  | [] => None
  | c :: cs' =>
      match lastSetFieldName cs' with
      | Some name => Some name
      | None =>
          match c with
          | CallSetFieldName name => Some name
          | _ => None
          end
      end
  end.

(** The arguments of the [addValidator] calls of a sequence, in order. *)
Fixpoint addedValidators (cs : list Call) : list BaseValidator :=
  match cs with
  | [] => []
  | CallAddValidator v :: cs' => v :: addedValidators cs'
  | _ :: cs' => addedValidators cs'
  end.

(** A heap whose receiver was just constructed. *)
Definition fresh_heap (w : World) : Heap :=
  {| this := new_FieldOptions; world := w; calls := [] |}.

(** ** Built-in validators *)

(** Modelled from the spec: the constructor parameter check of
    [validators/min-length] (not under src/), "n must be a positive
    integer".  The integer a double denotes, if it denotes one. *)
Definition toInteger (n : JsNumber) : option Z :=
  match n with
  | Finite negative mantissa exponent =>
      let magnitude := Z.of_N mantissa in
      let signed (z : Z) := if negative then (- z)%Z else z in
      if (0 <=? exponent)%Z then Some (signed (magnitude * 2 ^ exponent)%Z)
      else if (magnitude mod 2 ^ (- exponent) =? 0)%Z
           then Some (signed (magnitude / 2 ^ (- exponent))%Z)
           else None
  | _ => None
  end.

Definition positiveInteger (n : JsNumber) : option nat :=
  match toInteger n with
  | Some z => if (0 <? z)%Z then Some (Z.to_nat z) else None
  | None => None
  end.

(** Modelled from the spec: the members every variant of
    [validators/base-validator] (not under src/) shares, "an optional
    custom message override supplied at registration; when present,
    hasCustomMessage is true and getCustomMessage() returns it verbatim".
    A built-in validator keeps no state and has no effect. *)
Definition builtin (emptyToo : bool) (check : JsValue -> JsValue -> bool)
    (template : string -> JsValue -> string) (message : option string)
    : BaseValidator :=
  {| validatesEmptyValue := fun w => (emptyToo, w);
     isValid := fun value model w => (check value model, w);
     hasCustomMessage := fun w => (bool_decide (is_Some message), w);
     getCustomMessage := fun w => (default "" message, w);
     getMessage := fun name value w => (template name value, w) |}.

(** Modelled from the spec: [validators/required] (not under src/),
    "isValid = value is truthy; validatesEmptyValue() = true", default
    message "{fieldName} is required". *)
Definition RequiredValidator (message : option string) : BaseValidator :=
  builtin true (fun value _ => toBoolean value)
          (fun name _ => name ++ " is required")%string message.

(** Modelled from the spec: [validators/min-length] (not under src/) once
    constructed, "isValid = length >= n", default message "{fieldName} must
    be at least {min} characters long"; it is skipped on empty input. *)
Definition MinLengthValidator (minLength : nat) (message : option string)
    : BaseValidator :=
  builtin false
    (fun value _ =>
       match value with
       | JsString s => minLength <=? String.length s
       | _ => false
       end)
    (fun name _ =>
       name ++ " must be at least " ++ pretty minLength
            ++ " characters long")%string
    message.

(** Modelled from the spec: the constructor of [validators/min-length]
    (not under src/), "n must be a positive integer, else construction
    fails with a configuration error". *)
Definition new_MinLengthValidator {S} (minLength : JsNumber)
    (message : option string) : Comp S BaseValidator :=
  match positiveInteger minLength with
  | Some n => ret (MinLengthValidator n message)
  | None =>
      throw (ConfigurationError "minLength must be a positive integer")
  end.

(** ** ValidationManager *)

(** Modelled from the spec: the state of a [validation-manager] object
    (not under src/), "mapping from field-name to FieldOptions (keys
    unique, insertion order = declaration order)". *)
Definition ValidationManager : Type := list (string * FieldOptions).

Fixpoint lookupField (name : string) (m : ValidationManager)
    : option FieldOptions :=
  match m with
  | [] => None
  | (k, fo) :: m' =>
      if String.eqb k name then Some fo else lookupField name m'
  end.

(** Replace the entry of [name] where it stands, or add it at the end. *)
Fixpoint storeField (name : string) (fo : FieldOptions)
    (m : ValidationManager) : ValidationManager :=
  match m with
  | [] => [(name, fo)]
  | (k, old) :: m' =>
      if String.eqb k name then (k, fo) :: m'
      else (k, old) :: storeField name fo m'
  end.

(** The process: the static cache from a class to its manager, the
    manager objects, the world of the validators and the call log. *)
Record Runtime : Type := {
  registry : gmap Ref Ref;
  managers : gmap Ref ValidationManager;
  rtWorld : World;
  rtCalls : list Event
}.

Definition Action (A : Type) : Type := Comp Runtime A.

(** Modelled from the spec: static [ValidationManager.get] (not under
    src/), "creates-or-returns the singleton instance for that type (first
    call wins; subsequent calls for the same type must return the same
    instance)".  The result is the identity of the manager object. *)
Definition ValidationManager_get (type : Ref) : Action Ref :=
  fun r =>
    match registry r !! type with
    | Some manager => Done manager r
    | None =>
        let manager := fresh (dom (managers r)) in
        Done manager
             {| registry := <[type := manager]> (registry r);
                managers := <[manager := []]> (managers r);
                rtWorld := rtWorld r; rtCalls := rtCalls r |}
    end.

(** The fields of the manager object [manager]. *)
Definition fieldsOf (manager : Ref) : Action ValidationManager :=
  fun r =>
    match managers r !! manager with
    | Some m => Done m r
    | None => Threw TypeError r
    end.

(** Put back what a method left of its receiver, the world and the log. *)
Definition commit (manager : Ref) (field : string) (h : Heap) (r : Runtime)
    : Runtime :=
  {| registry := registry r;
     managers := alter (storeField field (this h)) manager (managers r);
     rtWorld := world h; rtCalls := calls h |}.

(** Call a method of [FieldOptions] on the options [fo] of [field]. *)
Definition onField {A} (manager : Ref) (field : string) (fo : FieldOptions)
    (method : Method A) : Action A :=
  fun r =>
    match method {| this := fo; world := rtWorld r; calls := rtCalls r |} with
    | Done a h => Done a (commit manager field h r)
    | Threw e h => Threw e (commit manager field h r)
    | OutOfFuel => OutOfFuel
    end.

(** Modelled from the spec: [ValidationManager.addValidator] (not under
    src/), "looks up or lazily creates the field's FieldOptions, then
    appends the validator (order-preserving)". *)
Definition ValidationManager_addValidator (manager : Ref) (field : string)
    (validator : BaseValidator) : Action unit :=
  let! fields := fieldsOf manager in
  let fo := default new_FieldOptions (lookupField field fields) in
  onField manager field fo (addValidator validator).

(** Modelled from the spec: [ValidationManager.setFieldName] (not under
    src/), "likewise lazily creates FieldOptions if needed". *)
Definition ValidationManager_setFieldName (manager : Ref) (field : string)
    (name : string) : Action unit :=
  let! fields := fieldsOf manager in
  let fo := default new_FieldOptions (lookupField field fields) in
  onField manager field fo (setFieldName name).

(** ** The MinLength decorator *)

Definition PropertyDecorator : Type := Ref -> string -> Action unit.

Definition MinLength (minLength : JsNumber) (message : option string)
    : PropertyDecorator :=
  fun (targetClass : Ref) (property : string) =>
    let! manager := ValidationManager_get targetClass in
    let! validator := new_MinLengthValidator minLength message in
    ValidationManager_addValidator manager property validator.

(** ** Registration as a state machine *)

(** One property decorated with [@MinLength(minLength, message)]. *)
Record Decoration : Type := {
  decMinLength : JsNumber;
  decMessage : option string;
  decProperty : string
}.

(** The decorators of one class, applied one after the other. *)
Fixpoint decorate (targetClass : Ref) (ds : list Decoration) : Action unit :=
  match ds with
  | [] => ret tt
  | d :: ds' =>
      let! _ := MinLength (decMinLength d) (decMessage d) targetClass
                          (decProperty d) in
      decorate targetClass ds'
  end.

(** The validators a list of decorations adds to [property], in order. *)
Fixpoint registeredBy (property : string) (ds : list Decoration)
    : list BaseValidator :=
  match ds with
  | [] => []
  | d :: ds' =>
      match positiveInteger (decMinLength d) with
      | Some n =>
          if String.eqb (decProperty d) property
          then MinLengthValidator n (decMessage d)
                 :: registeredBy property ds'
          else registeredBy property ds'
      | None => registeredBy property ds'
      end
  end.

(** The chain registered for [field] in the manager object [manager]. *)
Definition validatorsOf (manager : Ref) (field : string) (r : Runtime)
    : list BaseValidator :=
  match managers r !! manager with
  | Some fields =>
      match lookupField field fields with
      | Some fo => validators fo
      | None => []
      end
  | None => []
  end.

(** Every manager the cache hands out is an object of the process. *)
Definition wellFormed (r : Runtime) : Prop :=
  forall type manager,
    registry r !! type = Some manager -> is_Some (managers r !! manager).

Definition emptyRuntime (w : World) : Runtime :=
  {| registry := ∅; managers := ∅; rtWorld := w; rtCalls := [] |}.

(** What the registration layer can do to the process. *)
Inductive Step : Runtime -> Runtime -> Prop :=
| StepGet type manager r r' :
    ValidationManager_get type r = Done manager r' -> Step r r'
| StepAddValidator manager field validator r r' :
    ValidationManager_addValidator manager field validator r = Done tt r' ->
    Step r r'
| StepSetFieldName manager field name r r' :
    ValidationManager_setFieldName manager field name r = Done tt r' ->
    Step r r'
| StepMinLength minLength message targetClass property r r' :
    MinLength minLength message targetClass property r = Done tt r' ->
    Step r r'
| StepMinLengthThrew minLength message targetClass property e r r' :
    MinLength minLength message targetClass property r = Threw e r' ->
    Step r r'.

(** The cache keeps what it holds, and stays well formed. *)
Definition extends (r r' : Runtime) : Prop :=
  (forall t x, registry r !! t = Some x -> registry r' !! t = Some x)
  /\ (wellFormed r -> wellFormed r').

(** The bound of the decoration passes the constructor's check. *)
Definition validBound (d : Decoration) : Prop :=
  is_Some (positiveInteger (decMinLength d)).

(** A double that is zero or below. *)
Definition nonPositive (n : JsNumber) : Prop :=
  match n with
  | NaN => False
  | Infinity negative => negative = true
  | Finite negative mantissa _ => negative = true \/ mantissa = 0%N
  end.

(** ** ModelValidator *)

(** [model[name]]: the member access of the host, which may run a
    getter. *)
Variable readMember : JsValue -> string -> Effect JsValue.

Definition memberOf (model : JsValue) (name : string) : Action JsValue :=
  fun r =>
    let '(value, w) := readMember model name (rtWorld r) in
    Done value {| registry := registry r; managers := managers r;
                  rtWorld := w; rtCalls := rtCalls r |}.

(** Modelled from the spec: the state of a [model-validator] object (not
    under src/), the model instance and the manager of its type. *)
Record ModelValidator : Type := {
  mvModel : JsValue;
  mvManager : Ref
}.

(** Modelled from the spec: [ModelValidator.validateField] (not under
    src/), "resolves FieldOptions for name in the manager (absent: treat as
    no validators, return empty list, not an error), reads model[name],
    delegates to FieldOptions.validateValue(value, model)". *)
Definition validateField (mv : ModelValidator) (name : string)
    : Action (list string) :=
  let! fields := fieldsOf (mvManager mv) in
  match lookupField name fields with
  | None => ret []
  | Some fo =>
      let! value := memberOf (mvModel mv) name in
      onField (mvManager mv) name fo (validateValue value (mvModel mv))
  end.

Record FieldErrors : Type := {
  field : string;
  fieldErrors : list string
}.

Record ValidationResult : Type := {
  resultIsValid : bool;
  resultErrors : list FieldErrors
}.

(** Modelled from the spec: the loop of [ModelValidator.validate] (not
    under src/), "calls validateField on each, and for every field whose
    error list is non-empty appends {field, errors} to the result". *)
Fixpoint validateFields (mv : ModelValidator) (names : list string)
    (result : list FieldErrors) : Action (list FieldErrors) :=
  match names with
  | [] => ret result
  | name :: names' =>
      let! errors := validateField mv name in
      validateFields mv names'
        (match errors with
         | [] => result
         | _ => result ++ [{| field := name; fieldErrors := errors |}]
         end)
  end.

(** Modelled from the spec: [ModelValidator.validate] (not under src/),
    "iterates all registered field names in declaration order ...;
    isValid = result list is empty". *)
Definition validate (mv : ModelValidator) : Action ValidationResult :=
  let! fields := fieldsOf (mvManager mv) in
  let! result := validateFields mv (map fst fields) [] in
  ret {| resultIsValid := bool_decide (result = []);
         resultErrors := result |}.

(** The value [model[name]] has in a world. *)
Definition memberValue (model : JsValue) (name : string) (w : World)
    : JsValue :=
  (readMember model name w).1.

(** Reading a member of [model] changes no member of [model]. *)
Definition readsQuietly (model : JsValue) : Prop :=
  forall name name' w,
    memberValue model name' (readMember model name w).2
    = memberValue model name' w.

(** Two worlds in which every member of [model] reads the same. *)
Definition agree (model : JsValue) (w w' : World) : Prop :=
  forall name, memberValue model name w = memberValue model name w'.

(** The errors [validateField] reports for [name] when it starts in the
    world [w]: none for a field without options, else the verdicts of the
    field's chain on the value read from the model. *)
Definition errorsOfField (fields : ValidationManager) (model : JsValue)
    (name : string) (w : World) : list string :=
  match lookupField name fields with
  | None => []
  | Some fo =>
      omap id (verdicts (fieldName fo) (memberValue model name w) model
                        (validators fo) (readMember model name w).2)
  end.

(** The contract the specification puts on the validators registered for a
    model: stateless, and the fields of the model are left as they are. *)
Definition wellBehaved (model : JsValue) (v : BaseValidator) : Prop :=
  stateless v /\ forall name, preserves (memberValue model name) v.

(** Every validator registered in [fields] meets that contract for the
    model of [mv]. *)
Definition registeredWellBehaved (mv : ModelValidator)
    (fields : ValidationManager) : Prop :=
  forall name fo,
    lookupField name fields = Some fo ->
    Forall (wellBehaved (mvModel mv)) (validators fo).

(** ** Validators that read the model

    The fields of the model are part of the world, and a validator may read
    them: the cross-field predicate of the specification does.  [obs] is what
    a world shows of the model instance. *)

(** The results of the five members are fixed by their arguments and by
    what [obs] shows: identical value, model reference and model state
    always give identical results. *)
Definition determinedBy {A} (obs : World -> A) (v : BaseValidator) : Prop :=
  forall w w',
    obs w = obs w' ->
    (validatesEmptyValue v w).1 = (validatesEmptyValue v w').1
    /\ (forall value model,
          (isValid v value model w).1 = (isValid v value model w').1)
    /\ (hasCustomMessage v w).1 = (hasCustomMessage v w').1
    /\ (getCustomMessage v w).1 = (getCustomMessage v w').1
    /\ (forall name value,
          (getMessage v name value w).1 = (getMessage v name value w').1).

(** Every validator registered in [fields] reads the world through [obs]
    only, and leaves what [obs] shows as it is. *)
Definition registeredDeterminedBy {A} (obs : World -> A)
    (fields : ValidationManager) : Prop :=
  forall name fo,
    lookupField name fields = Some fo ->
    Forall (determinedBy obs) (validators fo)
    /\ Forall (preserves obs) (validators fo).

(** Reading a member of [model] gives a value fixed by what [obs] shows,
    and leaves what [obs] shows as it is. *)
Definition readDeterminedBy {A} (obs : World -> A) (model : JsValue) : Prop :=
  forall name,
    (forall w w', obs w = obs w' ->
                  (readMember model name w).1 = (readMember model name w').1)
    /\ (forall w, obs (readMember model name w).2 = obs w).

(** Modelled from the spec: the cross-field validator [validators/validation]
    (not under src/), "constructed with a fixed message and a function
    (value, model) -> bool; isValid delegates directly to that function".
    The function reads the model in the world; the fixed message is the
    message whatever the display name. *)
Definition PredicateValidator (message : string)
    (predicate : JsValue -> JsValue -> World -> bool) : BaseValidator :=
  {| validatesEmptyValue := fun w => (false, w);
     isValid := fun value model w => (predicate value model w, w);
     hasCustomMessage := fun w => (false, w);
     getCustomMessage := fun w => ("", w);
     getMessage := fun _ _ w => (message, w) |}.

End Validation.

Arguments BaseValidator : clear implicits.
Arguments FieldOptions : clear implicits.
Arguments Heap : clear implicits.
Arguments Runtime : clear implicits.
Arguments ValidationManager : clear implicits.

(** ** Observations of a run *)

Section Observations.

Context {World : Type}.

(** The turns of the loop in which [validatesEmptyValue()] was called, in
    program order. *)
Definition askedIndices (evs : list Event) : list nat :=
  omap (fun ev =>
          match ev with EvValidatesEmptyValue i _ => Some i | _ => None end)
       evs.

(** The turns of the loop in which [isValid] was called, in program
    order. *)
Definition evaluatedIndices (evs : list Event) : list nat :=
  omap (fun ev => match ev with EvIsValid i _ _ _ => Some i | _ => None end)
       evs.

(** The event is part of finding or reporting a message: the read of
    [hasCustomMessage], a call of [getCustomMessage] or [getMessage], or the
    push. *)
Definition consultsMessage (ev : Event) : Prop :=
  match ev with
  | EvHasCustomMessage _ _ | EvGetCustomMessage _ _ | EvGetMessage _ _ _ _
  | EvPush _ _ => True
  | _ => False
  end.

(** A heap whose receiver has the display name [name] and the chain
    [vs]. *)
Definition heapOf (name : string) (vs : list (BaseValidator World))
    (w : World) (log : list Event) : Heap World :=
  {| this := {| fieldName := name; validators := vs |};
     world := w; calls := log |}.

(** The display name registered for [field] in the manager object
    [manager], if the field has options. *)
Definition fieldNameOf (manager : Ref) (field : string) (r : Runtime World)
    : option string :=
  match managers r !! manager with
  | Some fields => fieldName <$> lookupField field fields
  | None => None
  end.

End Observations.

(** ** A model to run the definitions on

    The password and user name fields of the registration model of the
    integration tests, with the rules this development has validators for. *)

Module Example.

(** The world is the one model instance: its fields by name. *)
Definition World : Type := string -> JsValue.

Definition readMember (model : JsValue) (name : string) (w : World)
    : JsValue * World :=
  (w name, w).

Definition instance (username password : string) : World :=
  fun name =>
    if String.eqb name "username" then JsString username
    else if String.eqb name "password" then JsString password
    else JsUndefined.

Definition model : JsValue := JsObject 1.

(** The identity of the class [RegistrationModel]. *)
Definition RegistrationModel : Ref := 7.

(** [@FieldName('Password') @MinLength(10) password]: the decorator
    nearest to the property is applied first. *)
Definition register : Action (World := World) unit :=
  let! _ := MinLength (ofZ 10) None RegistrationModel "password" in
  let! manager := ValidationManager_get RegistrationModel in
  let! _ := ValidationManager_setFieldName manager "password" "Password" in
  let! _ := ValidationManager_addValidator manager "username"
              (RequiredValidator None) in
  ret tt.

(** Register, then validate one field of an instance. *)
Definition registerAndValidateField (w : World) (name : string)
    : option (list string) :=
  match register (emptyRuntime w) with
  | Done _ r =>
      match ValidationManager_get RegistrationModel r with
      | Done manager r' =>
          match validateField readMember
                  {| mvModel := model; mvManager := manager |} name r' with
          | Done errors _ => Some errors
          | _ => None
          end
      | _ => None
      end
  | _ => None
  end.

(** A heap whose receiver is the options of a password field. *)
Definition passwordOptions : FieldOptions World :=
  {| fieldName := "Password";
     validators := [MinLengthValidator 10 None;
                    MinLengthValidator 3 (Some "Too short");
                    RequiredValidator None] |}.

Definition passwordHeap (w : World) : Heap World :=
  {| this := passwordOptions; world := w; calls := [] |}.

(** The process the example registration leaves, and the fields of its
    one manager. *)
Definition registered : Runtime World :=
  match register (emptyRuntime (instance "bob001" "abc")) with
  | Done _ r => r
  | _ => emptyRuntime (instance "bob001" "abc")
  end.

Definition registeredFields : ValidationManager World :=
  default [] (managers registered !! 0).

(** [value === model.password] on strings, as in the integration test. *)
Definition equalsPassword (value model : JsValue) (w : World) : bool :=
  match value, w "password" with
  | JsString a, JsString b => String.eqb a b
  | _, _ => false
  end.

Definition passwordsMatch : BaseValidator World :=
  PredicateValidator "Passwords must match" equalsPassword.

(** An instance with a password and its confirmation. *)
Definition instanceWithConfirmation (password confirmPassword : string)
    : World :=
  fun name =>
    if String.eqb name "password" then JsString password
    else if String.eqb name "confirmPassword" then JsString confirmPassword
    else JsUndefined.

(** The options of the field [confirmPassword]. *)
Definition confirmOptions : FieldOptions World :=
  {| fieldName := "Confirm password"; validators := [passwordsMatch] |}.

(** [@MinLength(10) password] and the predicate on [confirmPassword]. *)
Definition registerWithConfirmation : Action (World := World) unit :=
  let! _ := MinLength (ofZ 10) None RegistrationModel "password" in
  let! manager := ValidationManager_get RegistrationModel in
  let! _ := ValidationManager_addValidator manager "confirmPassword"
              passwordsMatch in
  ValidationManager_setFieldName manager "confirmPassword"
                                 "Confirm password".

Definition registeredWithConfirmation : Runtime World :=
  match registerWithConfirmation
          (emptyRuntime (instanceWithConfirmation "abc" "abd")) with
  | Done _ r => r
  | _ => emptyRuntime (instanceWithConfirmation "abc" "abd")
  end.

Definition fieldsWithConfirmation : ValidationManager World :=
  default [] (managers registeredWithConfirmation !! 0).

End Example.

(** * Properties *)

Section FieldOptionsProperties.

Context {World : Type}.
Implicit Types (v : BaseValidator World) (h : Heap World).
Implicit Types (vs rest pre : list (BaseValidator World)).

(** ** The loop computes [judgeAll] *)

Local Arguments Nat.ltb : simpl never.

Lemma heap_eta h :
  {| this := this h; world := world h; calls := calls h ++ [] |} = h.
Proof. destruct h; simpl. by rewrite app_nil_r. Qed.

(** One turn of the loop is one [judge]. *)
Lemma validateValue_loop_step fuel value model name i v errors h :
  validators (this h) !! i = Some v ->
  validateValue_loop (S fuel) value model name (negb (toBoolean value))
    i errors h
  = let '(m, evs, w) := judge name value model i v (world h) in
    validateValue_loop fuel value model name (negb (toBoolean value))
      (i + 1) (errors ++ option_list m)
      {| this := this h; world := w; calls := calls h ++ evs |}.
Proof.
  intros Hlk. simpl validateValue_loop.
  unfold bind at 1. unfold readValidators at 1.
  assert (Hlt : (i <? length (validators (this h))) = true).
  { apply Nat.ltb_lt. by eapply lookup_lt_Some. }
  rewrite Hlt, Hlk. unfold bind at 1. unfold ret at 1.
  unfold judge, bind, invoke, logPush. simpl.
  destruct (validatesEmptyValue v (world h)) as [emptyOk w1]; simpl.
  destruct (negb emptyOk && negb (toBoolean value)); simpl.
  { by rewrite app_nil_r. }
  destruct (isValid v value model w1) as [ok w2]; simpl.
  destruct ok; simpl.
  { by rewrite app_nil_r, <- app_assoc. }
  destruct (hasCustomMessage v w2) as [custom w3]; simpl.
  destruct custom; simpl.
  - destruct (getCustomMessage v w3) as [m w4]; simpl.
    by rewrite <- !app_assoc.
  - destruct (getMessage v name value w3) as [m w4]; simpl.
    by rewrite <- !app_assoc.
Qed.

(** The loop ends when the counter reaches the length. *)
Lemma validateValue_loop_exit fuel value model name isEmpty i errors h :
  length (validators (this h)) <= i ->
  validateValue_loop (S fuel) value model name isEmpty i errors h
  = Done errors h.
Proof.
  intros Hle. simpl. unfold bind, readValidators.
  by apply Nat.ltb_ge in Hle as ->.
Qed.

Lemma validateValue_loop_judgeAll value model name :
  forall rest pre (errors : list string) h,
    validators (this h) = pre ++ rest ->
    validateValue_loop (S (length rest)) value model name
      (negb (toBoolean value)) (length pre) errors h
    = let '(ms, evs, w) :=
        judgeAll name value model (length pre) rest (world h) in
      Done (errors ++ omap id ms)
           {| this := this h; world := w; calls := calls h ++ evs |}.
Proof.
  induction rest as [|v rest IH]; intros pre errors h Hvs.
  - rewrite validateValue_loop_exit.
    + simpl. by rewrite heap_eta, app_nil_r.
    + rewrite Hvs, app_nil_r. lia.
  - simpl length. rewrite (validateValue_loop_step _ _ _ _ _ (v := v)).
    2:{ by rewrite Hvs, list_lookup_middle. }
    simpl judgeAll.
    destruct (judge name value model (length pre) v (world h))
      as [[m evs] w1].
    replace (length pre + 1) with (length (pre ++ [v]))
      by (rewrite length_app; reflexivity).
    replace (S (length pre)) with (length (pre ++ [v]))
      by (rewrite length_app; simpl; lia).
    rewrite IH.
    2:{ simpl. by rewrite Hvs, <- app_assoc. }
    simpl. destruct (judgeAll _ _ _ _ rest w1) as [[ms evs'] w2].
    rewrite <- !app_assoc. by destruct m.
Qed.

Lemma validateValue_judgeAll value model h :
  validateValue value model h
  = let '(ms, evs, w) :=
      judgeAll (fieldName (this h)) value model 0 (validators (this h))
               (world h) in
    Done (omap id ms)
         {| this := this h; world := w; calls := calls h ++ evs |}.
Proof.
  exact (validateValue_loop_judgeAll value model (fieldName (this h))
           (validators (this h)) [] [] h eq_refl).
Qed.

(** ** Facts about [judge] and [judgeAll] *)

Lemma judge_Judged name value model i v w :
  Judged name value model i (judge name value model i v w).1.2
         (judge name value model i v w).1.1.
Proof.
  unfold judge.
  destruct (validatesEmptyValue v w) as [emptyOk w1].
  destruct (negb emptyOk && negb (toBoolean value)) eqn:Hskip.
  { apply andb_true_iff in Hskip as [He Hv].
    apply negb_true_iff in He, Hv. subst emptyOk. simpl.
    by constructor. }
  destruct (isValid v value model w1) as [[] w2]; [by constructor|].
  destruct (hasCustomMessage v w2) as [[] w3].
  - destruct (getCustomMessage v w3). by constructor.
  - destruct (getMessage v name value w3). by constructor.
Qed.

Lemma Judged_index name value model i evs m ev :
  Judged name value model i evs m -> In ev evs -> indexOf ev = i.
Proof.
  destruct 1; simpl; intros Hin;
    repeat (destruct Hin as [<-|Hin]; [reflexivity|]); contradiction.
Qed.

Lemma Judged_pushed name value model i evs m :
  Judged name value model i evs m -> pushed evs = option_list m.
Proof. by destruct 1. Qed.

Lemma Judged_pushIndices name value model i evs m :
  Judged name value model i evs m -> pushIndices evs = failureIndices evs.
Proof. by destruct 1. Qed.

Lemma judgeAll_pushIndices name value model vs :
  forall i w,
    pushIndices (judgeAll name value model i vs w).1.2
    = failureIndices (judgeAll name value model i vs w).1.2.
Proof.
  induction vs as [|v vs IH]; intros i w; simpl; [done|].
  pose proof (judge_Judged name value model i v w) as Hj.
  destruct (judge name value model i v w) as [[m evs] w1].
  specialize (IH (S i) w1).
  destruct (judgeAll name value model (S i) vs w1) as [[ms evs'] w2].
  simpl in *. unfold pushIndices, failureIndices in *.
  rewrite !omap_app, IH. f_equal. by eapply Judged_pushIndices.
Qed.

Lemma judgeAll_length name value model vs :
  forall i w, length (judgeAll name value model i vs w).1.1 = length vs.
Proof.
  induction vs as [|v vs IH]; intros i w; simpl; [done|].
  destruct (judge name value model i v w) as [[m evs] w1].
  specialize (IH (S i) w1).
  destruct (judgeAll name value model (S i) vs w1) as [[ms evs'] w2].
  simpl in *. by rewrite IH.
Qed.

Lemma judgeAll_pushed name value model vs :
  forall i w,
    pushed (judgeAll name value model i vs w).1.2
    = omap id (judgeAll name value model i vs w).1.1.
Proof.
  induction vs as [|v vs IH]; intros i w; simpl; [done|].
  pose proof (judge_Judged name value model i v w) as Hj.
  destruct (judge name value model i v w) as [[m evs] w1].
  specialize (IH (S i) w1).
  destruct (judgeAll name value model (S i) vs w1) as [[ms evs'] w2].
  simpl in *. unfold pushed in *. rewrite omap_app, IH.
  apply Judged_pushed in Hj. unfold pushed in Hj. rewrite Hj.
  by destruct m.
Qed.

(** Every event of a chain is an event of the validator at its index,
    judged in the world its predecessors left, and conversely. *)
Lemma judgeAll_In name value model ev vs :
  forall i w,
    In ev (judgeAll name value model i vs w).1.2
    <-> exists k v,
          vs !! k = Some v
          /\ In ev (judge name value model (i + k) v
                      (worldBefore name value model i vs w k)).1.2.
Proof.
  induction vs as [|v vs IH]; intros i w; simpl.
  { split; [done|]. by intros (k & v & Hk & _). }
  specialize (IH (S i) (judge name value model i v w).2).
  destruct (judge name value model i v w) as [[m evs] w1] eqn:Hj.
  simpl in IH.
  destruct (judgeAll name value model (S i) vs w1) as [[ms evs'] w2].
  simpl in *. rewrite in_app_iff, IH. split.
  - intros [Hin|(k & v' & Hk & Hin)].
    + exists 0, v. rewrite Nat.add_0_r, Hj. by simpl.
    + exists (S k), v'. rewrite Nat.add_succ_r. by simpl.
  - intros ([|k] & v' & Hk & Hin); simpl in *.
    + injection Hk as <-. rewrite Nat.add_0_r, Hj in Hin. by left.
    + right. exists k, v'. by rewrite Nat.add_succ_r in Hin.
Qed.

Lemma trace_In value model h ev :
  In ev (trace value model h)
  <-> exists v,
        validators (this h) !! indexOf ev = Some v
        /\ In ev (judge (fieldName (this h)) value model (indexOf ev) v
                    (worldBefore (fieldName (this h)) value model 0
                                 (validators (this h)) (world h)
                                 (indexOf ev))).1.2.
Proof.
  unfold trace. rewrite judgeAll_In. split.
  - intros (k & v & Hk & Hin). simpl in Hin.
    assert (indexOf ev = k) as <-
      by (eapply Judged_index; [apply judge_Judged|exact Hin]).
    by exists v.
  - intros (v & Hk & Hin). by exists (indexOf ev), v.
Qed.

Lemma validateValue_trace value model h :
  exists errors w,
    validateValue value model h
    = Done errors {| this := this h; world := w;
                     calls := calls h ++ trace value model h |}
    /\ errors = pushed (trace value model h).
Proof.
  rewrite validateValue_judgeAll. unfold trace.
  pose proof (judgeAll_pushed (fieldName (this h)) value model
                (validators (this h)) 0 (world h)) as Hp.
  destruct (judgeAll _ _ _ _ _ _) as [[ms evs] w]. simpl in *.
  by exists (omap id ms), w.
Qed.

Lemma judgeAll_imap name value model vs :
  forall i w,
    (judgeAll name value model i vs w).1.1
    = imap (fun k v =>
              (judge name value model (i + k) v
                     (worldBefore name value model i vs w k)).1.1) vs.
Proof.
  induction vs as [|v vs IH]; intros i w; simpl; [done|].
  specialize (IH (S i) (judge name value model i v w).2).
  destruct (judge name value model i v w) as [[m evs] w1] eqn:Hj.
  simpl in IH.
  destruct (judgeAll name value model (S i) vs w1) as [[ms evs'] w2].
  simpl in *. rewrite Nat.add_0_r, Hj. simpl. f_equal.
  rewrite IH. apply imap_ext. intros k v' _. simpl.
  by rewrite Nat.add_succ_r.
Qed.

Lemma judgeAll_verdicts name value model vs w :
  (judgeAll name value model 0 vs w).1.1 = verdicts name value model vs w.
Proof. by rewrite judgeAll_imap. Qed.

(** *** Stateless validators *)

Lemma judge_stateless name value model i v w w' :
  stateless v ->
  (judge name value model i v w).1 = (judge name value model i v w').1.
Proof.
  intros (H1 & H2 & H3 & H4 & H5). unfold judge.
  specialize (H1 w w').
  destruct (validatesEmptyValue v w) as [b w1],
           (validatesEmptyValue v w') as [b' w1'].
  simpl in H1. subst b'.
  destruct (negb b && negb (toBoolean value)); [done|].
  specialize (H2 value model w1 w1').
  destruct (isValid v value model w1) as [ok w2],
           (isValid v value model w1') as [ok' w2'].
  simpl in H2. subst ok'. destruct ok; [done|].
  specialize (H3 w2 w2').
  destruct (hasCustomMessage v w2) as [c w3],
           (hasCustomMessage v w2') as [c' w3'].
  simpl in H3. subst c'. destruct c.
  - specialize (H4 w3 w3').
    destruct (getCustomMessage v w3), (getCustomMessage v w3').
    simpl in *. by subst.
  - specialize (H5 name value w3 w3').
    destruct (getMessage v name value w3), (getMessage v name value w3').
    simpl in *. by subst.
Qed.

Lemma judgeAll_stateless name value model vs :
  Forall stateless vs ->
  forall i w w',
    (judgeAll name value model i vs w).1
    = (judgeAll name value model i vs w').1.
Proof.
  induction 1 as [|v vs Hv _ IH]; intros i w w'; simpl; [done|].
  pose proof (judge_stateless name value model i w w' Hv) as Hj.
  destruct (judge name value model i v w) as [[m evs] w1],
           (judge name value model i v w') as [[m' evs'] w1'].
  simpl in Hj. injection Hj as <- <-.
  specialize (IH (S i) w1 w1').
  destruct (judgeAll name value model (S i) vs w1) as [[ms es] w2],
           (judgeAll name value model (S i) vs w1') as [[ms' es'] w2'].
  simpl in *. by injection IH as <- <-.
Qed.

(** *** Validators that leave an observation of the world alone *)

Lemma judge_preserves {A} (obs : World -> A) name value model i v w :
  preserves obs v -> obs (judge name value model i v w).2 = obs w.
Proof.
  intros (H1 & H2 & H3 & H4 & H5). unfold judge.
  specialize (H1 w). destruct (validatesEmptyValue v w) as [b w1].
  simpl in H1. destruct (negb b && negb (toBoolean value)); [done|].
  specialize (H2 value model w1).
  destruct (isValid v value model w1) as [ok w2]. simpl in H2.
  destruct ok; simpl; [congruence|].
  specialize (H3 w2). destruct (hasCustomMessage v w2) as [c w3].
  simpl in H3. destruct c.
  - specialize (H4 w3). destruct (getCustomMessage v w3).
    simpl in *. congruence.
  - specialize (H5 name value w3). destruct (getMessage v name value w3).
    simpl in *. congruence.
Qed.

Lemma judgeAll_preserves {A} (obs : World -> A) name value model vs :
  Forall (preserves obs) vs ->
  forall i w, obs (judgeAll name value model i vs w).2 = obs w.
Proof.
  induction 1 as [|v vs Hv _ IH]; intros i w; simpl; [done|].
  pose proof (judge_preserves name value model i w Hv) as Hj.
  destruct (judge name value model i v w) as [[m evs] w1].
  specialize (IH (S i) w1).
  destruct (judgeAll name value model (S i) vs w1) as [[ms es] w2].
  simpl in *. congruence.
Qed.

(** *** Validators that always carry a custom message *)



(** *** Validators that do not look at empty values *)

Lemma judge_neverValidatesEmpty name value model i v w :
  neverValidatesEmpty v -> toBoolean value = false ->
  (judge name value model i v w).1
  = (None, [EvValidatesEmptyValue i false]).
Proof.
  intros Hn Hv. unfold judge. specialize (Hn w).
  destruct (validatesEmptyValue v w) as [b w1]. simpl in Hn. subst b.
  by rewrite Hv.
Qed.

Local Ltac in_list :=
  simpl; repeat (first [left; reflexivity | right]).

Local Ltac not_in_list H :=
  simpl in H;
  repeat (destruct H as [H|H]; [discriminate H|]); contradiction.

(** The events of one index are the events of that validator's turn. *)
Lemma trace_at value model h i v :
  validators (this h) !! i = Some v ->
  exists evs m,
    Judged (fieldName (this h)) value model i evs m
    /\ forall ev, indexOf ev = i ->
                  (In ev (trace value model h) <-> In ev evs).
Proof.
  intros Hi.
  set (w := worldBefore (fieldName (this h)) value model 0
              (validators (this h)) (world h) i).
  exists (judge (fieldName (this h)) value model i v w).1.2,
         (judge (fieldName (this h)) value model i v w).1.1.
  split; [apply judge_Judged|].
  intros ev Hidx. rewrite trace_In, Hidx. fold w. split.
  - intros (v' & Hv' & Hin). rewrite Hi in Hv'. by injection Hv' as <-.
  - intros Hin. by exists v.
Qed.

Lemma trace_index_lt value model h ev :
  In ev (trace value model h) ->
  is_Some (validators (this h) !! indexOf ev).
Proof. rewrite trace_In. intros (v & Hv & _). by exists v. Qed.

(** ** The claims about [validateValue] *)

(** C1.  For every value, model and validator chain, [validateValue]
    returns, and what it returns is the chain's verdicts with the empty
    slots dropped: one slot per registered validator in registration
    order, holding a message exactly when the validator was evaluated and
    failed.  The messages returned are the messages pushed, and the turns
    of the loop that pushed are the turns in which [isValid] returned
    false, one for one and in the same order.  Nothing is merged, reordered
    or cut short at a failure. *)
Theorem validateValue_one_message_per_failure value model h :
  exists errors w evs,
    validateValue value model h
    = Done errors {| this := this h; world := w; calls := calls h ++ evs |}
    /\ errors = omap id (verdicts (fieldName (this h)) value model
                                  (validators (this h)) (world h))
    /\ length (verdicts (fieldName (this h)) value model
                       (validators (this h)) (world h))
       = length (validators (this h))
    /\ errors = pushed evs
    /\ pushIndices evs = failureIndices evs.
Proof.
  rewrite validateValue_judgeAll, <- judgeAll_verdicts.
  pose proof (judgeAll_length (fieldName (this h)) value model
                (validators (this h)) 0 (world h)) as Hlen.
  pose proof (judgeAll_pushed (fieldName (this h)) value model
                (validators (this h)) 0 (world h)) as Hpushed.
  pose proof (judgeAll_pushIndices (fieldName (this h)) value model
                (validators (this h)) 0 (world h)) as Hidx.
  destruct (judgeAll _ _ _ _ _ _) as [[ms evs] w]. simpl in *.
  by exists (omap id ms), w, evs.
Qed.

(** C2.  When the value is empty (falsy), a validator whose
    [validatesEmptyValue()] returns false is asked that one question and
    nothing else: its [isValid] is not called, no message is looked up and
    nothing is pushed for it.  That holds for whatever validator gave the
    answer false in the run, and a validator that always answers false does
    give it. *)
Theorem validateValue_skips_on_empty value model h :
  toBoolean value = false ->
  exists errors h' evs,
    validateValue value model h = Done errors h'
    /\ calls h' = calls h ++ evs
    /\ errors = pushed evs
    /\ (forall i v,
          validators (this h) !! i = Some v ->
          neverValidatesEmpty v ->
          In (EvValidatesEmptyValue i false) evs)
    /\ (forall i,
          In (EvValidatesEmptyValue i false) evs ->
          forall ev, In ev evs -> indexOf ev = i ->
                     ev = EvValidatesEmptyValue i false).
Proof.
  intros Hv.
  destruct (validateValue_trace value model h) as (errors & w & Hrun & He).
  eexists errors, _, (trace value model h).
  split; [exact Hrun|]. split; [done|]. split; [done|]. split.
  - intros i v Hi Hn.
    pose proof (@judge_neverValidatesEmpty (fieldName (this h)) value model
                  i v (worldBefore (fieldName (this h)) value model 0
                         (validators (this h)) (world h) i) Hn Hv) as Hj.
    apply trace_In. simpl. exists v. split; [done|].
    apply (f_equal snd) in Hj. simpl in Hj. rewrite Hj. by left.
  - intros i Hcall ev Hin Hidx.
    destruct (@trace_index_lt value model h _ Hcall) as [v Hi]. simpl in Hi.
    destruct (@trace_at value model h i v Hi) as (evs & m & HJ & Hiff).
    apply Hiff in Hcall; [|done]. apply Hiff in Hin; [|done].
    destruct HJ as [_|emptyOk Hev|emptyOk m Hev|emptyOk m Hev].
    + by destruct Hin as [<-|[]].
    + destruct Hcall as [[= ->]|[Hc|[]]]; [|discriminate Hc].
      by rewrite Hv in Hev.
    + destruct Hcall as [[= ->]|Hc]; [by rewrite Hv in Hev|].
      not_in_list Hc.
    + destruct Hcall as [[= ->]|Hc]; [by rewrite Hv in Hev|].
      not_in_list Hc.
Qed.


(** ** Sequences of calls on one object *)

Lemma validateValue_this value model h :
  exists errors h',
    validateValue value model h = Done errors h' /\ this h' = this h.
Proof.
  destruct (validateValue_trace value model h) as (errors & w & Hrun & _).
  by eexists errors, _.
Qed.

Lemma perform_this (c : Call (World := World)) h :
  exists h',
    perform c h = Done tt h'
    /\ fieldName (this h')
       = match c with
         | CallSetFieldName name => name
         | _ => fieldName (this h)
         end
    /\ validators (this h')
       = match c with
         | CallAddValidator v => validators (this h) ++ [v]
         | _ => validators (this h)
         end.
Proof.
  destruct c as [|name|v| |value model]; simpl;
    try (by eexists; split; [reflexivity|]).
  unfold bind.
  destruct (validateValue_this value model h) as (errors & h' & -> & Hthis).
  exists h'. by rewrite Hthis.
Qed.

Lemma performAll_this (cs : list (Call (World := World))) :
  forall h,
    exists h',
      performAll cs h = Done tt h'
      /\ fieldName (this h')
         = default (fieldName (this h)) (lastSetFieldName cs)
      /\ validators (this h') = validators (this h) ++ addedValidators cs.
Proof.
  induction cs as [|c cs IH]; intros h; simpl.
  { exists h. by rewrite app_nil_r. }
  unfold bind.
  destruct (perform_this c h) as (h1 & -> & Hname & Hvs).
  destruct (IH h1) as (h2 & -> & Hname2 & Hvs2).
  exists h2. split; [done|]. rewrite Hname2, Hvs2, Hname, Hvs.
  split.
  - by destruct (lastSetFieldName cs), c.
  - destruct c; simpl; try done. by rewrite <- app_assoc.
Qed.

Lemma pushed_In i m evs : In (EvPush i m) evs -> In m (pushed evs).
Proof.
  intros Hin. apply list_elem_of_In. unfold pushed.
  apply list_elem_of_omap. exists (EvPush i m). split; [|done].
  by apply list_elem_of_In.
Qed.

(** A built-in validator without a message of its own that is evaluated and
    fails pushes its template, rendered with the name it is given. *)
Lemma judge_builtin_fails name value model i emptyToo check template
    (w : World) :
  emptyToo = true \/ toBoolean value = true ->
  check value model = false ->
  In (EvPush i (template name value))
     (judge name value model i (builtin emptyToo check template None) w).1.2.
Proof.
  intros Hev Hfail. unfold judge. simpl. rewrite Hfail.
  destruct Hev as [-> | ->]; simpl.
  - in_list.
  - rewrite andb_false_r. in_list.
Qed.

(** C7.  After any sequence of calls on a new [FieldOptions],
    [getFieldName] returns the argument of the last [setFieldName] of the
    sequence, or ["Field"] if there was none, and that name is the display
    name of the messages a following [validateValue] renders: the list it
    returns is the verdicts of the registered chain judged with that name;
    every [getMessage] call receives that name; a validator that fails
    without a custom message has its [getMessage(name, value)] result
    pushed and returned; and a built-in validator that is evaluated and
    fails without a message of its own has its template, rendered with that
    name, among the errors returned. *)
Theorem display_name_last_write_wins (cs : list (Call (World := World)))
    (w : World) value model :
  exists h errors h' evs,
    performAll cs (fresh_heap w) = Done tt h
    /\ getFieldName h = Done (default "Field" (lastSetFieldName cs)) h
    /\ validateValue value model h = Done errors h'
    /\ calls h' = calls h ++ evs
    /\ errors = pushed evs
    /\ errors
       = omap id (verdicts (default "Field" (lastSetFieldName cs)) value
                           model (addedValidators cs) (world h))
    /\ (forall i name arg s,
          In (EvGetMessage i name arg s) evs ->
          name = default "Field" (lastSetFieldName cs))
    /\ (forall i,
          In (EvIsValid i value model false) evs ->
          In (EvHasCustomMessage i false) evs ->
          exists m,
            In (EvGetMessage i (default "Field" (lastSetFieldName cs))
                             value m) evs
            /\ In (EvPush i m) evs
            /\ In m errors)
    /\ (forall i emptyToo check template,
          addedValidators cs !! i
          = Some (builtin emptyToo check template None) ->
          emptyToo = true \/ toBoolean value = true ->
          check value model = false ->
          In (template (default "Field" (lastSetFieldName cs)) value)
             errors).
Proof.
  destruct (performAll_this cs (fresh_heap w)) as (h & Hrun & Hname & Hvs).
  simpl in Hname, Hvs.
  destruct (validateValue_trace value model h) as (errors & w' & Hval & He).
  eexists h, errors, _, (trace value model h).
  split; [done|]. split.
  { unfold getFieldName, readFieldName. by rewrite Hname. }
  split; [exact Hval|]. split; [done|]. split; [done|]. split.
  { rewrite He, <- Hname, <- Hvs, <- judgeAll_verdicts.
    unfold trace. by rewrite judgeAll_pushed. }
  split; [|split].
  - intros i name arg s Hin.
    destruct (@trace_index_lt value model h _ Hin) as [v Hv]. simpl in Hv.
    destruct (@trace_at value model h i v Hv) as (evs & m & HJ & Hiff).
    apply Hiff in Hin; [|done]. rewrite <- Hname.
    destruct HJ; simpl in Hin;
      repeat (destruct Hin as [Hin|Hin];
              [first [discriminate Hin | by injection Hin]|]);
      contradiction.
  - intros i Hfail Hplain.
    destruct (@trace_index_lt value model h _ Hfail) as [v Hv]. simpl in Hv.
    destruct (@trace_at value model h i v Hv) as (evs & m & HJ & Hiff).
    apply Hiff in Hfail; [|done]. apply Hiff in Hplain; [|done].
    rewrite <- Hname.
    destruct HJ as [_|emptyOk _|emptyOk m _|emptyOk m _].
    + not_in_list Hfail.
    + not_in_list Hplain.
    + not_in_list Hplain.
    + assert (Hpush : In (EvPush i m) (trace value model h))
        by (apply Hiff; [done|in_list]).
      exists m. split; [apply Hiff; [done|in_list]|].
      split; [exact Hpush|]. rewrite He. by eapply pushed_In.
  - intros i emptyToo check template Hi Hev Hfail.
    rewrite He. apply (pushed_In i). apply trace_In. simpl.
    exists (builtin emptyToo check template None).
    split; [by rewrite Hvs|].
    rewrite Hname. by apply judge_builtin_fails.
Qed.

(** C9.  [validateValue] writes nothing of its own.  The receiver (display
    name and validator chain) is the same object state afterwards; the
    validators are handed the very value and model the caller passed; and
    whatever part of the world (the model's fields, say) the validators of
    the chain leave alone is the same after the call as before. *)
Theorem validateValue_only_reads value model h :
  exists errors h' evs,
    validateValue value model h = Done errors h'
    /\ this h' = this h
    /\ calls h' = calls h ++ evs
    /\ (forall i arg1 arg2 r,
          In (EvIsValid i arg1 arg2 r) evs -> arg1 = value /\ arg2 = model)
    /\ (forall i name arg s,
          In (EvGetMessage i name arg s) evs -> arg = value)
    /\ (forall (A : Type) (obs : World -> A),
          Forall (preserves obs) (validators (this h)) ->
          obs (world h') = obs (world h)).
Proof.
  destruct (validateValue_trace value model h) as (errors & w' & Hval & He).
  eexists errors, _, (trace value model h).
  split; [exact Hval|]. split; [done|]. split; [done|].
  split; [|split].
  - intros i arg1 arg2 r Hin.
    destruct (@trace_index_lt value model h _ Hin) as [v Hv]. simpl in Hv.
    destruct (@trace_at value model h i v Hv) as (evs & m & HJ & Hiff).
    apply Hiff in Hin; [|done].
    destruct HJ; simpl in Hin;
      repeat (destruct Hin as [Hin|Hin];
              [first [discriminate Hin | by injection Hin]|]);
      contradiction.
  - intros i name arg s Hin.
    destruct (@trace_index_lt value model h _ Hin) as [v Hv]. simpl in Hv.
    destruct (@trace_at value model h i v Hv) as (evs & m & HJ & Hiff).
    apply Hiff in Hin; [|done].
    destruct HJ; simpl in Hin;
      repeat (destruct Hin as [Hin|Hin];
              [first [discriminate Hin | by injection Hin]|]);
      contradiction.
  - intros A obs Hpres. simpl.
    rewrite validateValue_judgeAll in Hval.
    pose proof (judgeAll_preserves (fieldName (this h)) value model Hpres
                  0 (world h)) as Hobs.
    destruct (judgeAll _ _ _ _ _ _) as [[ms evs] w1]. simpl in *.
    by injection Hval as _ <-.
Qed.

(** C10.  A new [FieldOptions] has no validators and the display name
    ["Field"]; each [addValidator(v)] puts [v] at the end of the list and
    touches nothing else; so after a sequence of [addValidator] calls on a
    new object [getValidators()] is the list of the arguments in call
    order. *)
Theorem new_FieldOptions_and_addValidator :
  (forall w : World,
      getValidators (fresh_heap w) = Done [] (fresh_heap w)
      /\ getFieldName (fresh_heap w) = Done "Field" (fresh_heap w))
  /\ (forall v h,
        exists h',
          addValidator v h = Done tt h'
          /\ getValidators h' = Done (validators (this h) ++ [v]) h'
          /\ fieldName (this h') = fieldName (this h)
          /\ world h' = world h /\ calls h' = calls h)
  /\ (forall vs (w : World),
        exists h,
          performAll (map CallAddValidator vs) (fresh_heap w) = Done tt h
          /\ getValidators h = Done vs h).
Proof.
  split; [done|]. split.
  - intros v h. eexists. split; [reflexivity|].
    unfold getValidators, readValidators. simpl. by split.
  - intros vs w.
    destruct (performAll_this (map CallAddValidator vs) (fresh_heap w))
      as (h & Hrun & _ & Hvs).
    exists h. split; [done|].
    unfold getValidators, readValidators. rewrite Hvs. simpl.
    f_equal. clear. induction vs as [|v vs IH]; simpl; [done|].
    by rewrite IH.
Qed.

(** Two calls in a row report the same errors when the validators are
    stateless. *)
Lemma validateValue_twice value model h :
  Forall stateless (validators (this h)) ->
  exists errors h1 h2,
    validateValue value model h = Done errors h1
    /\ validateValue value model h1 = Done errors h2.
Proof.
  intros Hs.
  destruct (judgeAll (fieldName (this h)) value model 0
              (validators (this h)) (world h)) as [[ms evs] w1] eqn:H1.
  destruct (judgeAll (fieldName (this h)) value model 0
              (validators (this h)) w1) as [[ms' evs'] w2] eqn:H2.
  pose proof (judgeAll_stateless (fieldName (this h)) value model Hs
                0 (world h) w1) as Heq.
  rewrite H1, H2 in Heq. simpl in Heq. injection Heq as <- <-.
  exists (omap id ms),
         {| this := this h; world := w1; calls := calls h ++ evs |},
         {| this := this h; world := w2;
            calls := (calls h ++ evs) ++ evs |}.
  split; rewrite validateValue_judgeAll; simpl.
  - by rewrite H1.
  - by rewrite H2.
Qed.

(** ** The built-in validators meet the contracts *)

Lemma builtin_stateless emptyToo check template message :
  stateless (builtin (World := World) emptyToo check template message).
Proof. by repeat split. Qed.

Lemma builtin_preserves {A} (obs : World -> A) emptyToo check template
    message :
  preserves obs (builtin emptyToo check template message).
Proof. by repeat split. Qed.

End FieldOptionsProperties.

Section RegistryProperties.

Context {World : Type}.
Implicit Types (r : Runtime World) (fo : FieldOptions World).
Implicit Types (m fields : ValidationManager World).
Implicit Types (v : BaseValidator World).

(** ** The fields of a manager *)

Lemma lookupField_storeField q p fo m :
  lookupField q (storeField p fo m)
  = if String.eqb p q then Some fo else lookupField q m.
Proof.
  induction m as [|[k old] m IH]; simpl.
  { by destruct (String.eqb p q). }
  destruct (String.eqb k p) eqn:Hkp; simpl.
  - apply String.eqb_eq in Hkp as ->. by destruct (String.eqb p q).
  - rewrite IH. destruct (String.eqb k q) eqn:Hkq; [|done].
    apply String.eqb_eq in Hkq as ->.
    by rewrite String.eqb_sym, Hkp.
Qed.

Lemma storeField_same p fo m :
  lookupField p m = Some fo -> storeField p fo m = m.
Proof.
  induction m as [|[k old] m IH]; simpl; [done|].
  destruct (String.eqb k p); [by intros [= ->]|].
  intros H. by rewrite IH.
Qed.

(** ** What the registration calls do *)

Lemma ValidationManager_get_hit type manager r :
  registry r !! type = Some manager ->
  ValidationManager_get type r = Done manager r.
Proof. intros H. unfold ValidationManager_get. by rewrite H. Qed.

Lemma ValidationManager_get_registers type r :
  exists manager r',
    ValidationManager_get type r = Done manager r'
    /\ registry r' !! type = Some manager
    /\ (forall t x, registry r !! t = Some x -> registry r' !! t = Some x)
    /\ (forall x fields, managers r !! x = Some fields ->
                         managers r' !! x = Some fields)
    /\ (forall x fields, managers r' !! x = Some fields ->
                         managers r !! x = Some fields \/ fields = [])
    /\ (wellFormed r -> wellFormed r')
    /\ rtWorld r' = rtWorld r /\ rtCalls r' = rtCalls r.
Proof.
  unfold ValidationManager_get.
  destruct (registry r !! type) as [manager|] eqn:Hreg.
  { exists manager, r. repeat split; auto. }
  set (manager := fresh (dom (managers r))).
  assert (Hfresh : managers r !! manager = None)
    by (apply not_elem_of_dom, is_fresh).
  eexists manager, _. split; [reflexivity|]. simpl.
  split; [by rewrite lookup_insert_eq|].
  split.
  { intros t x Ht. rewrite lookup_insert_ne; [done|]. congruence. }
  split.
  { intros x fields Hx. rewrite lookup_insert_ne; [done|]. congruence. }
  split.
  { intros x fields. rewrite lookup_insert. case_decide; [|by left].
    intros [= <-]. by right. }
  split; [|done].
  intros Hwf t x. unfold wellFormed in *. simpl.
  rewrite lookup_insert. case_decide.
  - intros [= <-]. by rewrite lookup_insert_eq.
  - intros Ht. rewrite lookup_insert. case_decide; [done|].
    by apply (Hwf t).
Qed.

(** A method that ends normally, called on the options of a field. *)
Lemma onField_Done {A} manager field fo (method : Method A) r a h :
  method {| this := fo; world := rtWorld r; calls := rtCalls r |}
  = Done a h ->
  onField manager field fo method r = Done a (commit manager field h r).
Proof. intros H. unfold onField. by rewrite H. Qed.

Lemma ValidationManager_addValidator_run manager field v r fields :
  managers r !! manager = Some fields ->
  ValidationManager_addValidator manager field v r
  = Done tt
      {| registry := registry r;
         managers :=
           <[manager :=
               storeField field
                 {| fieldName :=
                      fieldName (default new_FieldOptions
                                         (lookupField field fields));
                    validators :=
                      validators (default new_FieldOptions
                                          (lookupField field fields))
                      ++ [v] |}
                 fields]> (managers r);
         rtWorld := rtWorld r; rtCalls := rtCalls r |}.
Proof.
  intros Hm. unfold ValidationManager_addValidator, bind, fieldsOf.
  rewrite Hm. unfold onField, addValidator, pushValidator, commit. simpl.
  f_equal. f_equal. apply map_eq. intros x.
  rewrite lookup_alter, lookup_insert. case_decide; [|done].
  by rewrite Hm.
Qed.

Lemma ValidationManager_setFieldName_run manager field name r fields :
  managers r !! manager = Some fields ->
  ValidationManager_setFieldName manager field name r
  = Done tt
      {| registry := registry r;
         managers :=
           <[manager :=
               storeField field
                 {| fieldName := name;
                    validators :=
                      validators (default new_FieldOptions
                                          (lookupField field fields)) |}
                 fields]> (managers r);
         rtWorld := rtWorld r; rtCalls := rtCalls r |}.
Proof.
  intros Hm. unfold ValidationManager_setFieldName, bind, fieldsOf.
  rewrite Hm. unfold onField, setFieldName, writeFieldName, commit. simpl.
  f_equal. f_equal. apply map_eq. intros x.
  rewrite lookup_alter, lookup_insert. case_decide; [|done].
  by rewrite Hm.
Qed.

Lemma ValidationManager_addValidator_inv manager field v r r' :
  ValidationManager_addValidator manager field v r = Done tt r' ->
  exists fields fo,
    managers r !! manager = Some fields
    /\ registry r' = registry r
    /\ managers r' = <[manager := storeField field fo fields]> (managers r).
Proof.
  destruct (managers r !! manager) as [fields|] eqn:Hm.
  - erewrite ValidationManager_addValidator_run by exact Hm.
    intros [= <-]. by eexists fields, _.
  - unfold ValidationManager_addValidator, bind, fieldsOf.
    by rewrite Hm.
Qed.

Lemma ValidationManager_setFieldName_inv manager field name r r' :
  ValidationManager_setFieldName manager field name r = Done tt r' ->
  exists fields fo,
    managers r !! manager = Some fields
    /\ registry r' = registry r
    /\ managers r' = <[manager := storeField field fo fields]> (managers r).
Proof.
  destruct (managers r !! manager) as [fields|] eqn:Hm.
  - erewrite ValidationManager_setFieldName_run by exact Hm.
    intros [= <-]. by eexists fields, _.
  - unfold ValidationManager_setFieldName, bind, fieldsOf.
    by rewrite Hm.
Qed.

(** The decorator is the lookup of the manager, then the constructor,
    then the registration. *)
Lemma MinLength_unfold minLength message targetClass property r manager r1 :
  ValidationManager_get targetClass r = Done manager r1 ->
  MinLength minLength message targetClass property r
  = match positiveInteger minLength with
    | Some n =>
        ValidationManager_addValidator manager property
          (MinLengthValidator n message) r1
    | None =>
        Threw (ConfigurationError "minLength must be a positive integer") r1
    end.
Proof.
  intros Hget. unfold MinLength, bind. rewrite Hget.
  unfold new_MinLengthValidator. by destruct (positiveInteger minLength).
Qed.

(** ** Invariants of registration *)

Lemma extends_refl r : extends r r.
Proof. by split. Qed.

Lemma extends_trans r1 r2 r3 : extends r1 r2 -> extends r2 r3 -> extends r1 r3.
Proof. intros [H1 H1'] [H2 H2']. split; auto. Qed.

Lemma extends_update r r' manager fields x :
  managers r !! manager = Some fields ->
  registry r' = registry r ->
  managers r' = <[manager := x]> (managers r) ->
  extends r r'.
Proof.
  intros Hm Hreg Hmgr. split; [by rewrite Hreg|].
  intros Hwf t y. rewrite Hreg, Hmgr. intros Ht.
  rewrite lookup_insert. case_decide; [done|]. by apply (Hwf t).
Qed.

Lemma extends_get type manager r r' :
  ValidationManager_get type r = Done manager r' -> extends r r'.
Proof.
  destruct (ValidationManager_get_registers type r)
    as (x & r1 & -> & _ & Hmono & _ & _ & Hwf & _).
  intros [= <- <-]. by split.
Qed.

Lemma extends_addValidator manager field v r r' :
  ValidationManager_addValidator manager field v r = Done tt r' ->
  extends r r'.
Proof.
  intros (fields & fo & Hm & Hreg & Hmgr)%ValidationManager_addValidator_inv.
  by eapply extends_update.
Qed.

Lemma Step_extends r r' : Step r r' -> extends r r'.
Proof.
  destruct 1 as [type manager r r' H|manager field v r r' H
                |manager field name r r' H
                |n message cls property r r' H
                |n message cls property e r r' H].
  - by eapply extends_get.
  - by eapply extends_addValidator.
  - apply ValidationManager_setFieldName_inv in H
      as (fields & fo & Hm & Hreg & Hmgr).
    by eapply extends_update.
  - destruct (ValidationManager_get_registers cls r)
      as (manager & r1 & Hget & _).
    erewrite MinLength_unfold in H by exact Hget.
    apply extends_get in Hget.
    destruct (positiveInteger n); [|done].
    eapply extends_trans; [exact Hget|]. by eapply extends_addValidator.
  - destruct (ValidationManager_get_registers cls r)
      as (manager & r1 & Hget & _).
    erewrite MinLength_unfold in H by exact Hget.
    pose proof Hget as Hext. apply extends_get in Hext.
    destruct (positiveInteger n).
    + unfold ValidationManager_addValidator, bind, fieldsOf in H.
      destruct (managers r1 !! manager); [done|].
      by injection H as _ <-.
    + by injection H as _ <-.
Qed.

Lemma rtc_Step_extends r r' : rtc Step r r' -> extends r r'.
Proof.
  induction 1 as [|r1 r2 r3 Hstep _ IH]; [apply extends_refl|].
  eapply extends_trans; [by apply Step_extends|done].
Qed.

(** ** The chains of a manager *)

Lemma validatorsOf_get type manager r r1 field x :
  ValidationManager_get type r = Done manager r1 ->
  validatorsOf x field r1 = validatorsOf x field r.
Proof.
  destruct (ValidationManager_get_registers type r)
    as (y & r' & -> & _ & _ & Hold & Hnew & _).
  intros [= <- <-]. unfold validatorsOf.
  destruct (managers r !! x) as [fields|] eqn:Hx.
  - by rewrite (Hold _ _ Hx).
  - destruct (managers r' !! x) as [fields|] eqn:Hx'; [|done].
    destruct (Hnew _ _ Hx') as [Hc| ->]; [|done].
    unfold ValidationManager in *. rewrite Hx in Hc. discriminate Hc.
Qed.

Lemma validatorsOf_addValidator manager field v r r' q :
  ValidationManager_addValidator manager field v r = Done tt r' ->
  validatorsOf manager q r'
  = if String.eqb field q
    then validatorsOf manager q r ++ [v]
    else validatorsOf manager q r.
Proof.
  destruct (managers r !! manager) as [fields|] eqn:Hm.
  - erewrite ValidationManager_addValidator_run by exact Hm.
    intros [= <-]. unfold validatorsOf. simpl.
    rewrite Hm, lookup_insert_eq, lookupField_storeField.
    destruct (String.eqb field q) eqn:Hq; [|done].
    apply String.eqb_eq in Hq as ->.
    by destruct (lookupField q fields).
  - unfold ValidationManager_addValidator, bind, fieldsOf. by rewrite Hm.
Qed.

Lemma decorate_accumulates type manager ds :
  Forall validBound ds ->
  forall r,
    wellFormed r ->
    registry r !! type = Some manager ->
    exists r',
      decorate type ds r = Done tt r'
      /\ wellFormed r'
      /\ registry r' !! type = Some manager
      /\ forall property,
           validatorsOf manager property r'
           = validatorsOf manager property r ++ registeredBy property ds.
Proof.
  induction 1 as [|d ds [n Hn] _ IH]; intros r Hwf Hreg; simpl.
  { exists r. repeat split; auto. intros q. by rewrite app_nil_r. }
  unfold bind.
  erewrite MinLength_unfold by (by apply ValidationManager_get_hit).
  rewrite Hn.
  destruct (Hwf _ _ Hreg) as [fields Hm].
  pose proof (@ValidationManager_addValidator_run manager (decProperty d)
                (MinLengthValidator n (decMessage d)) r fields Hm) as Hrun.
  pose proof Hrun as Hext. apply extends_addValidator in Hext as [Hmono Hwf'].
  pose proof (fun q => @validatorsOf_addValidator _ _ _ _ _ q Hrun) as Hvs.
  rewrite Hrun.
  destruct (IH _ (Hwf' Hwf) (Hmono _ _ Hreg)) as (r' & -> & Hwf2 & Hreg2 & Hacc).
  exists r'. repeat split; auto.
  intros q. rewrite Hacc, Hvs.
  destruct (String.eqb (decProperty d) q); [|done].
  by rewrite <- app_assoc.
Qed.

(** The first decorator of a class creates its manager, as a call of
    [ValidationManager.get] would. *)
Lemma decorate_after_get type manager r r1 d ds :
  ValidationManager_get type r = Done manager r1 ->
  decorate type (d :: ds) r = decorate type (d :: ds) r1.
Proof.
  intros Hget. simpl. unfold bind.
  destruct (ValidationManager_get_registers type r)
    as (x & r' & Hget' & Hreg & _).
  rewrite Hget in Hget'. injection Hget' as <- <-.
  apply ValidationManager_get_hit in Hreg.
  rewrite (@MinLength_unfold (decMinLength d) (decMessage d) type
             (decProperty d) r manager r1 Hget).
  by rewrite (@MinLength_unfold (decMinLength d) (decMessage d) type
                (decProperty d) r1 manager r1 Hreg).
Qed.

(** ** Bounds the constructor refuses *)

Lemma positiveInteger_nonPositive n :
  nonPositive n -> positiveInteger n = None.
Proof.
  destruct n as [|negative|negative mantissa exponent]; simpl;
    [done|done|].
  intros Hn. unfold positiveInteger, toInteger.
  assert (Hpow : forall e, (0 <= e)%Z -> (0 < 2 ^ e)%Z)
    by (intros e He; by apply Z.pow_pos_nonneg).
  assert (Hmag : (0 <= Z.of_N mantissa)%Z) by apply N2Z.is_nonneg.
  destruct (0 <=? exponent)%Z eqn:He.
  - apply Z.leb_le in He.
    assert (0 <= Z.of_N mantissa * 2 ^ exponent)%Z
      by (apply Z.mul_nonneg_nonneg; [done|]; by apply Z.lt_le_incl, Hpow).
    destruct Hn as [-> | ->].
    + destruct (0 <? _)%Z eqn:Hlt; [|done]. apply Z.ltb_lt in Hlt. lia.
    + simpl. by destruct negative.
  - apply Z.leb_gt in He.
    destruct (Z.of_N mantissa mod 2 ^ (- exponent) =? 0)%Z; [|done].
    assert (0 <= Z.of_N mantissa / 2 ^ (- exponent))%Z
      by (apply Z.div_pos; [done|]; apply Hpow; lia).
    destruct Hn as [-> | ->].
    + destruct (0 <? _)%Z eqn:Hlt; [|done]. apply Z.ltb_lt in Hlt. lia.
    + simpl. by destruct negative.
Qed.

Lemma nonPositive_ofZ z : (z <= 0)%Z -> nonPositive (ofZ z).
Proof.
  intros Hz. unfold ofZ. simpl.
  destruct (Z.ltb_spec z 0); [by left|right].
  assert (z = 0%Z) as -> by lia. reflexivity.
Qed.

(** ** The claims about registration *)

(** C4.  The first [ValidationManager.get] for a type settles which
    manager object the type has: asking again returns that same object and
    changes nothing, and so does asking after any further registration
    activity.  So the [MinLength] decorators applied to one class all
    append to the chains of that one manager, in the order they are
    applied. *)
Theorem ValidationManager_get_is_a_singleton type r :
  wellFormed r ->
  exists manager r1,
    ValidationManager_get type r = Done manager r1
    /\ ValidationManager_get type r1 = Done manager r1
    /\ (forall r2, rtc Step r1 r2 ->
                   ValidationManager_get type r2 = Done manager r2)
    /\ (forall d ds,
          Forall validBound (d :: ds) ->
          exists r2,
            decorate type (d :: ds) r = Done tt r2
            /\ ValidationManager_get type r2 = Done manager r2
            /\ forall property,
                 validatorsOf manager property r2
                 = validatorsOf manager property r
                   ++ registeredBy property (d :: ds)).
Proof.
  intros Hwf.
  destruct (ValidationManager_get_registers type r)
    as (manager & r1 & Hget & Hreg & _ & _ & _ & Hwf1 & _).
  exists manager, r1. split; [done|].
  split; [by apply ValidationManager_get_hit|].
  split.
  - intros r2 [Hmono _]%rtc_Step_extends.
    by apply ValidationManager_get_hit, Hmono.
  - intros d ds Hvalid.
    destruct (@decorate_accumulates type manager (d :: ds) Hvalid r1
                (Hwf1 Hwf) Hreg)
      as (r2 & Hrun & _ & Hreg2 & Hacc).
    exists r2. split.
    { by erewrite decorate_after_get by exact Hget. }
    split; [by apply ValidationManager_get_hit|].
    intros property. rewrite Hacc. f_equal.
    by eapply validatorsOf_get.
Qed.

(** C6.  Applying the [MinLength] decorator with a bound that is zero or
    negative throws a configuration error at once, and no chain of any
    manager has a validator more than before. *)
Theorem MinLength_rejects_non_positive_bound minLength message
    targetClass property r :
  nonPositive minLength ->
  exists what r',
    MinLength minLength message targetClass property r
    = Threw (ConfigurationError what) r'
    /\ forall manager field,
         validatorsOf manager field r' = validatorsOf manager field r.
Proof.
  intros Hn%positiveInteger_nonPositive.
  destruct (ValidationManager_get_registers targetClass r)
    as (manager & r1 & Hget & _).
  erewrite MinLength_unfold by exact Hget. rewrite Hn.
  eexists _, r1. split; [reflexivity|].
  intros x field. by eapply validatorsOf_get.
Qed.

End RegistryProperties.

Section ModelValidatorProperties.

Context {World : Type}.
Variable readMember : JsValue -> string -> World -> JsValue * World.

Implicit Types (r : Runtime World) (fo : FieldOptions World).
Implicit Types (h : Heap World) (w : World).
Implicit Types (fields : ValidationManager World).
Implicit Types (mv : ModelValidator).

Lemma validateValue_no_validators value model h :
  validators (this h) = [] -> validateValue value model h = Done [] h.
Proof.
  intros Hvs. rewrite validateValue_judgeAll, Hvs. simpl.
  by rewrite heap_eta.
Qed.

(** [validateField] leaves the registry and the managers as they are. *)
Lemma commit_same manager name fields fo h r :
  managers r !! manager = Some fields ->
  lookupField name fields = Some fo ->
  this h = fo ->
  commit manager name h r
  = {| registry := registry r; managers := managers r;
       rtWorld := world h; rtCalls := calls h |}.
Proof.
  intros Hm Hfo Hthis. unfold commit. f_equal.
  apply alter_id. intros x Hx. unfold ValidationManager in *.
  rewrite Hm in Hx. injection Hx as <-. rewrite Hthis.
  by apply storeField_same.
Qed.

Lemma validateField_run mv name r fields :
  managers r !! mvManager mv = Some fields ->
  exists w' evs,
    validateField readMember mv name r
    = Done (errorsOfField readMember fields (mvModel mv) name (rtWorld r))
           {| registry := registry r; managers := managers r;
              rtWorld := w'; rtCalls := rtCalls r ++ evs |}
    /\ ((forall fo, lookupField name fields = Some fo ->
                    forall q, Forall (preserves
                                        (memberValue readMember (mvModel mv) q))
                                     (validators fo)) ->
        readsQuietly readMember (mvModel mv) ->
        agree readMember (mvModel mv) (rtWorld r) w').
Proof.
  intros Hm. unfold validateField, bind, fieldsOf, errorsOfField.
  rewrite Hm.
  destruct (lookupField name fields) as [fo|] eqn:Hfo.
  - unfold memberOf, memberValue.
    destruct (readMember (mvModel mv) name (rtWorld r)) as [value w1] eqn:Hr.
    simpl.
    set (h := {| this := fo; world := w1; calls := rtCalls r |}).
    pose proof (validateValue_judgeAll value (mvModel mv) h) as Hval.
    pose proof (judgeAll_verdicts (fieldName fo) value (mvModel mv)
                  (validators fo) w1) as Hver.
    pose proof (fun A (obs : World -> A) H =>
                  @judgeAll_preserves World A obs (fieldName fo) value
                    (mvModel mv) (validators fo) H 0 w1) as Hpres.
    simpl in Hval.
    destruct (judgeAll (fieldName fo) value (mvModel mv) 0
                (validators fo) w1) as [[ms evs] w2].
    simpl in Hver, Hpres. subst ms.
    exists w2, evs. split.
    + erewrite onField_Done by exact Hval.
      by erewrite commit_same by (done || exact Hm || exact Hfo).
    + intros Hkeep Hquiet q. unfold memberValue.
      rewrite (Hpres _ (fun w => (readMember (mvModel mv) q w).1)
                 (Hkeep fo eq_refl q)).
      specialize (Hquiet name q (rtWorld r)). unfold memberValue in Hquiet.
      rewrite Hr in Hquiet. simpl in Hquiet. by rewrite Hquiet.
  - exists (rtWorld r), []. split.
    + unfold ret. destruct r; simpl. by rewrite app_nil_r.
    + by intros _ _ q.
Qed.

Lemma verdicts_stateless name value model (vs : list (BaseValidator World))
    w w' :
  Forall stateless vs ->
  verdicts name value model vs w = verdicts name value model vs w'.
Proof.
  intros Hs. rewrite <- !judgeAll_verdicts.
  by rewrite (judgeAll_stateless name value model Hs 0 w w').
Qed.

Lemma errorsOfField_agree fields model name w w' :
  (forall fo, lookupField name fields = Some fo ->
              Forall stateless (validators fo)) ->
  agree readMember model w w' ->
  errorsOfField readMember fields model name w
  = errorsOfField readMember fields model name w'.
Proof.
  intros Hs Hagree. unfold errorsOfField.
  destruct (lookupField name fields) as [fo|]; [|done].
  rewrite (Hagree name).
  by rewrite (verdicts_stateless _ _ _
                (readMember model name w).2 (readMember model name w').2
                (Hs fo eq_refl)).
Qed.

Lemma agree_trans model w1 w2 w3 :
  agree readMember model w1 w2 -> agree readMember model w2 w3 ->
  agree readMember model w1 w3.
Proof. intros H1 H2 q. by rewrite H1. Qed.

Lemma agree_sym model w1 w2 :
  agree readMember model w1 w2 -> agree readMember model w2 w1.
Proof. intros H q. by rewrite H. Qed.

Lemma registeredWellBehaved_stateless mv fields name fo :
  registeredWellBehaved readMember mv fields ->
  lookupField name fields = Some fo ->
  Forall stateless (validators fo).
Proof.
  intros Hwb Hfo. eapply Forall_impl; [by eapply Hwb|].
  by intros v [Hs _].
Qed.

Lemma registeredWellBehaved_preserves mv fields name fo q :
  registeredWellBehaved readMember mv fields ->
  lookupField name fields = Some fo ->
  Forall (preserves (memberValue readMember (mvModel mv) q)) (validators fo).
Proof.
  intros Hwb Hfo. eapply Forall_impl; [by eapply Hwb|].
  intros v [_ Hp]. apply Hp.
Qed.

(** Two runs of the loop of [validate] that start in worlds where the
    model reads the same report the same. *)
Lemma validateFields_agree mv fields R M :
  M !! mvManager mv = Some fields ->
  registeredWellBehaved readMember mv fields ->
  readsQuietly readMember (mvModel mv) ->
  forall names result w1 c1 w2 c2,
    agree readMember (mvModel mv) w1 w2 ->
    exists out w1' c1' w2' c2',
      validateFields readMember mv names result
        {| registry := R; managers := M; rtWorld := w1; rtCalls := c1 |}
      = Done out {| registry := R; managers := M;
                    rtWorld := w1'; rtCalls := c1' |}
      /\ validateFields readMember mv names result
           {| registry := R; managers := M; rtWorld := w2; rtCalls := c2 |}
         = Done out {| registry := R; managers := M;
                       rtWorld := w2'; rtCalls := c2' |}
      /\ agree readMember (mvModel mv) w1 w1'
      /\ agree readMember (mvModel mv) w2 w2'.
Proof.
  intros Hm Hwb Hquiet.
  induction names as [|name names IH]; intros result w1 c1 w2 c2 Hagree.
  { by exists result, w1, c1, w2, c2. }
  simpl. unfold bind.
  destruct (@validateField_run mv name
              {| registry := R; managers := M; rtWorld := w1; rtCalls := c1 |}
              fields Hm) as (w1a & evs1 & -> & Hkeep1).
  destruct (@validateField_run mv name
              {| registry := R; managers := M; rtWorld := w2; rtCalls := c2 |}
              fields Hm) as (w2a & evs2 & -> & Hkeep2).
  simpl in *.
  assert (Hagree1 : agree readMember (mvModel mv) w1 w1a).
  { apply Hkeep1; [|done]. intros fo Hfo q.
    by eapply registeredWellBehaved_preserves. }
  assert (Hagree2 : agree readMember (mvModel mv) w2 w2a).
  { apply Hkeep2; [|done]. intros fo Hfo q.
    by eapply registeredWellBehaved_preserves. }
  rewrite <- (@errorsOfField_agree fields (mvModel mv) name w1 w2);
    [|intros fo Hfo; by eapply registeredWellBehaved_stateless|done].
  set (result' :=
         match errorsOfField readMember fields (mvModel mv) name w1 with
         | [] => result
         | _ :: _ => _
         end).
  destruct (IH result' w1a (c1 ++ evs1) w2a (c2 ++ evs2))
    as (out & w1' & c1' & w2' & c2' & H1 & H2 & Ha1 & Ha2).
  { apply (@agree_trans (mvModel mv) w1a w1 w2a); [by apply agree_sym|].
    by apply (@agree_trans (mvModel mv) w1 w2 w2a). }
  exists out, w1', c1', w2', c2'. split; [done|]. split; [done|].
  split.
  - by apply (@agree_trans (mvModel mv) w1 w1a w1').
  - by apply (@agree_trans (mvModel mv) w2 w2a w2').
Qed.

Lemma validate_twice mv r fields :
  managers r !! mvManager mv = Some fields ->
  registeredWellBehaved readMember mv fields ->
  readsQuietly readMember (mvModel mv) ->
  exists result r1 r2,
    validate readMember mv r = Done result r1
    /\ validate readMember mv r1 = Done result r2.
Proof.
  intros Hm Hwb Hquiet. destruct r as [R M w c]. simpl in Hm.
  destruct (@validateFields_agree mv fields R M Hm Hwb Hquiet
              (map fst fields) [] w c w c)
    as (out & w1 & c1 & _ & _ & Hrun & _ & Hagree & _); [done|].
  destruct (@validateFields_agree mv fields R M Hm Hwb Hquiet
              (map fst fields) [] w c w1 c1 Hagree)
    as (out' & w1' & c1' & w2 & c2 & Hrun' & Hrun2 & _).
  rewrite Hrun in Hrun'. injection Hrun' as <- <- <-.
  eexists _, _, _. unfold validate, bind, fieldsOf. simpl.
  rewrite Hm, Hrun. split; [reflexivity|]. simpl.
  by rewrite Hm, Hrun2.
Qed.

(** ** The claims about fields without rules and about repeated calls *)

(** C5.  A field without validators is valid: [validateValue] on an empty
    chain returns the empty list and leaves the heap as it is, and
    [validateField] returns the empty list, without throwing, both for a
    name the manager has no options for and for a name whose options hold
    no validator. *)
Theorem no_validators_no_errors :
  (forall value model h,
      validators (this h) = [] -> validateValue value model h = Done [] h)
  /\ (forall mv name r fields,
        managers r !! mvManager mv = Some fields ->
        match lookupField name fields with
        | Some fo => validators fo = []
        | None => True
        end ->
        exists r',
          validateField readMember mv name r = Done [] r'
          /\ registry r' = registry r /\ managers r' = managers r).
Proof.
  split; [apply validateValue_no_validators|].
  intros mv name r fields Hm Hnone.
  destruct (@validateField_run mv name r fields Hm) as (w' & evs & Hrun & _).
  exists {| registry := registry r; managers := managers r;
            rtWorld := w'; rtCalls := rtCalls r ++ evs |}.
  split; [|by split].
  rewrite Hrun. f_equal. unfold errorsOfField.
  destruct (lookupField name fields) as [fo|]; [|done].
  by rewrite Hnone.
Qed.

(** ** Validators that read the model *)

Lemma judge_determinedBy {A} (obs : World -> A) name value model i
    (v : BaseValidator World) w w' :
  determinedBy obs v -> preserves obs v -> obs w = obs w' ->
  (judge name value model i v w).1 = (judge name value model i v w').1.
Proof.
  intros Hd (P1 & P2 & P3 & P4 & P5) Heq. unfold judge.
  destruct (Hd w w' Heq) as (E1 & _).
  pose proof (P1 w) as Hw1. pose proof (P1 w') as Hw1'.
  destruct (validatesEmptyValue v w) as [b w1],
           (validatesEmptyValue v w') as [b' w1'].
  simpl in E1, Hw1, Hw1'. subst b'.
  destruct (negb b && negb (toBoolean value)); [done|].
  assert (Heq1 : obs w1 = obs w1') by congruence.
  destruct (Hd w1 w1' Heq1) as (_ & E2 & _). specialize (E2 value model).
  pose proof (P2 value model w1) as Hw2.
  pose proof (P2 value model w1') as Hw2'.
  destruct (isValid v value model w1) as [ok w2],
           (isValid v value model w1') as [ok' w2'].
  simpl in E2, Hw2, Hw2'. subst ok'. destruct ok; [done|].
  assert (Heq2 : obs w2 = obs w2') by congruence.
  destruct (Hd w2 w2' Heq2) as (_ & _ & E3 & _).
  pose proof (P3 w2) as Hw3. pose proof (P3 w2') as Hw3'.
  destruct (hasCustomMessage v w2) as [c w3],
           (hasCustomMessage v w2') as [c' w3'].
  simpl in E3, Hw3, Hw3'. subst c'.
  assert (Heq3 : obs w3 = obs w3') by congruence.
  destruct (Hd w3 w3' Heq3) as (_ & _ & _ & E4 & E5).
  destruct c.
  - destruct (getCustomMessage v w3), (getCustomMessage v w3').
    simpl in *. by subst.
  - specialize (E5 name value).
    destruct (getMessage v name value w3), (getMessage v name value w3').
    simpl in *. by subst.
Qed.

Lemma judgeAll_determinedBy {A} (obs : World -> A) name value model
    (vs : list (BaseValidator World)) :
  Forall (determinedBy obs) vs -> Forall (preserves obs) vs ->
  forall i w w',
    obs w = obs w' ->
    (judgeAll name value model i vs w).1
    = (judgeAll name value model i vs w').1.
Proof.
  induction vs as [|v vs IH]; intros Hd Hp i w w' Heq; simpl; [done|].
  apply Forall_cons in Hd as [Hdv Hd]. apply Forall_cons in Hp as [Hpv Hp].
  pose proof (@judge_determinedBy A obs name value model i v w w'
                Hdv Hpv Heq) as Hj.
  pose proof (@judge_preserves World A obs name value model i v w Hpv)
    as Hw1.
  pose proof (@judge_preserves World A obs name value model i v w' Hpv)
    as Hw1'.
  destruct (judge name value model i v w) as [[m evs] w1],
           (judge name value model i v w') as [[m' evs'] w1'].
  simpl in Hj, Hw1, Hw1'. injection Hj as <- <-.
  assert (Heq1 : obs w1 = obs w1') by congruence.
  specialize (IH Hd Hp (S i) w1 w1' Heq1).
  destruct (judgeAll name value model (S i) vs w1) as [[ms es] w2],
           (judgeAll name value model (S i) vs w1') as [[ms' es'] w2'].
  simpl in *. by injection IH as <- <-.
Qed.

(** A call of [validateValue] and any later call on the same receiver,
    value and model, in a world that shows the same model. *)
Lemma validateValue_same_model {A} (obs : World -> A) value model h :
  Forall (determinedBy obs) (validators (this h)) ->
  Forall (preserves obs) (validators (this h)) ->
  exists errors h1,
    validateValue value model h = Done errors h1
    /\ this h1 = this h
    /\ obs (world h1) = obs (world h)
    /\ forall h',
         this h' = this h -> obs (world h') = obs (world h) ->
         exists h2, validateValue value model h' = Done errors h2.
Proof.
  intros Hd Hp.
  pose proof (@judgeAll_preserves World A obs (fieldName (this h)) value
                model (validators (this h)) Hp 0 (world h)) as Hobs.
  destruct (judgeAll (fieldName (this h)) value model 0
              (validators (this h)) (world h)) as [[ms evs] w1] eqn:H1.
  simpl in Hobs.
  exists (omap id ms),
         {| this := this h; world := w1; calls := calls h ++ evs |}.
  split; [by rewrite validateValue_judgeAll, H1|].
  split; [done|]. split; [done|].
  intros h' Hthis Heq. rewrite validateValue_judgeAll, Hthis.
  pose proof (@judgeAll_determinedBy A obs (fieldName (this h)) value model
                (validators (this h)) Hd Hp 0 (world h') (world h) Heq)
    as Hsame.
  rewrite H1 in Hsame.
  destruct (judgeAll _ _ _ _ _ (world h')) as [[ms' evs'] w2].
  simpl in Hsame. injection Hsame as -> ->. by eexists.
Qed.

Lemma errorsOfField_determinedBy {A} (obs : World -> A) fields model name
    w w' :
  registeredDeterminedBy obs fields ->
  readDeterminedBy readMember obs model ->
  obs w = obs w' ->
  errorsOfField readMember fields model name w
  = errorsOfField readMember fields model name w'.
Proof.
  intros Hreg Hread Heq. unfold errorsOfField.
  destruct (lookupField name fields) as [fo|] eqn:Hfo; [|done].
  destruct (Hreg name fo Hfo) as [Hd Hp].
  destruct (Hread name) as [Hvalue Hkeep].
  unfold memberValue. rewrite (Hvalue w w' Heq).
  rewrite <- !judgeAll_verdicts.
  by rewrite (@judgeAll_determinedBy A obs (fieldName fo)
                (readMember model name w').1 model (validators fo) Hd Hp 0
                (readMember model name w).2 (readMember model name w').2)
    by (rewrite !Hkeep; exact Heq).
Qed.

Lemma validateField_same_model {A} (obs : World -> A) mv name r fields :
  managers r !! mvManager mv = Some fields ->
  registeredDeterminedBy obs fields ->
  readDeterminedBy readMember obs (mvModel mv) ->
  exists w' log,
    validateField readMember mv name r
    = Done (errorsOfField readMember fields (mvModel mv) name (rtWorld r))
           {| registry := registry r; managers := managers r;
              rtWorld := w'; rtCalls := log |}
    /\ obs w' = obs (rtWorld r).
Proof.
  intros Hm Hreg Hread. unfold validateField, bind, fieldsOf, errorsOfField.
  rewrite Hm.
  destruct (lookupField name fields) as [fo|] eqn:Hfo.
  - destruct (Hreg name fo Hfo) as [_ Hp].
    destruct (Hread name) as [_ Hkeep]. specialize (Hkeep (rtWorld r)).
    unfold memberOf, memberValue.
    destruct (readMember (mvModel mv) name (rtWorld r)) as [value w1].
    simpl in *.
    set (h := {| this := fo; world := w1; calls := rtCalls r |}).
    pose proof (validateValue_judgeAll value (mvModel mv) h) as Hval.
    pose proof (judgeAll_verdicts (fieldName fo) value (mvModel mv)
                  (validators fo) w1) as Hver.
    pose proof (@judgeAll_preserves World A obs (fieldName fo) value
                  (mvModel mv) (validators fo) Hp 0 w1) as Hobs.
    simpl in Hval.
    destruct (judgeAll (fieldName fo) value (mvModel mv) 0
                (validators fo) w1) as [[ms evs] w2].
    simpl in Hver, Hobs. subst ms.
    exists w2, (rtCalls r ++ evs). split.
    + erewrite onField_Done by exact Hval.
      by erewrite commit_same by (done || exact Hm || exact Hfo).
    + congruence.
  - exists (rtWorld r), (rtCalls r). split; [|done].
    unfold ret. by destruct r.
Qed.

Lemma validateFields_same_model {A} (obs : World -> A) mv fields R M :
  M !! mvManager mv = Some fields ->
  registeredDeterminedBy obs fields ->
  readDeterminedBy readMember obs (mvModel mv) ->
  forall names result w1 c1 w2 c2,
    obs w1 = obs w2 ->
    exists out w1' c1' w2' c2',
      validateFields readMember mv names result
        {| registry := R; managers := M; rtWorld := w1; rtCalls := c1 |}
      = Done out {| registry := R; managers := M;
                    rtWorld := w1'; rtCalls := c1' |}
      /\ validateFields readMember mv names result
           {| registry := R; managers := M; rtWorld := w2; rtCalls := c2 |}
         = Done out {| registry := R; managers := M;
                       rtWorld := w2'; rtCalls := c2' |}
      /\ obs w1' = obs w1
      /\ obs w2' = obs w2.
Proof.
  intros Hm Hreg Hread.
  induction names as [|name names IH]; intros result w1 c1 w2 c2 Heq.
  { by exists result, w1, c1, w2, c2. }
  simpl. unfold bind.
  destruct (@validateField_same_model A obs mv name
              {| registry := R; managers := M; rtWorld := w1; rtCalls := c1 |}
              fields Hm Hreg Hread) as (w1a & c1a & -> & Ha1).
  destruct (@validateField_same_model A obs mv name
              {| registry := R; managers := M; rtWorld := w2; rtCalls := c2 |}
              fields Hm Hreg Hread) as (w2a & c2a & -> & Ha2).
  simpl in *.
  rewrite <- (@errorsOfField_determinedBy A obs fields (mvModel mv) name
                w1 w2 Hreg Hread Heq).
  set (result' :=
         match errorsOfField readMember fields (mvModel mv) name w1 with
         | [] => result
         | _ :: _ => _
         end).
  destruct (IH result' w1a c1a w2a c2a)
    as (out & w1' & c1' & w2' & c2' & H1 & H2 & Hb1 & Hb2); [congruence|].
  exists out, w1', c1', w2', c2'. split; [done|]. split; [done|].
  split; congruence.
Qed.

Lemma validate_same_model {A} (obs : World -> A) mv r fields :
  managers r !! mvManager mv = Some fields ->
  registeredDeterminedBy obs fields ->
  readDeterminedBy readMember obs (mvModel mv) ->
  exists result r1,
    validate readMember mv r = Done result r1
    /\ registry r1 = registry r /\ managers r1 = managers r
    /\ obs (rtWorld r1) = obs (rtWorld r)
    /\ forall r',
         registry r' = registry r -> managers r' = managers r ->
         obs (rtWorld r') = obs (rtWorld r) ->
         exists r2, validate readMember mv r' = Done result r2.
Proof.
  intros Hm Hreg Hread. destruct r as [R M w c]. simpl in Hm.
  destruct (@validateFields_same_model A obs mv fields R M Hm Hreg Hread
              (map fst fields) [] w c w c eq_refl)
    as (out & w1 & c1 & _ & _ & Hrun & _ & Hobs & _).
  eexists _, _. unfold validate, bind, fieldsOf. simpl.
  rewrite Hm, Hrun. split; [reflexivity|]. simpl.
  split; [done|]. split; [done|]. split; [done|].
  intros [R' M' w' c']. simpl. intros -> -> Heq.
  destruct (@validateFields_same_model A obs mv fields R M Hm Hreg Hread
              (map fst fields) [] w c w' c' (eq_sym Heq))
    as (out' & w1' & c1' & w2 & c2 & Hrun' & Hrun2 & _).
  rewrite Hrun in Hrun'. injection Hrun' as <- <- <-.
  rewrite Hm, Hrun2. by eexists.
Qed.

(** C8.  Validation is repeatable.  Take validators whose results are fixed
    by their arguments and by the state of the model instance (what [obs]
    shows of the world), and that leave that state as it is; they may read
    the model, as a cross-field predicate does.  Then [validateValue]
    returns, a second call right after it returns the same errors, and so
    does any later call on the same receiver in a world where the model is
    unchanged.  The same holds of [validate()] when reading a field of the
    model is fixed by, and leaves alone, the state of the model. *)
Theorem validation_is_idempotent :
  (forall (A : Type) (obs : World -> A) value model h,
      Forall (determinedBy obs) (validators (this h)) ->
      Forall (preserves obs) (validators (this h)) ->
      exists errors h1,
        validateValue value model h = Done errors h1
        /\ (exists h2, validateValue value model h1 = Done errors h2)
        /\ (forall h',
              this h' = this h -> obs (world h') = obs (world h) ->
              exists h2, validateValue value model h' = Done errors h2))
  /\ (forall (A : Type) (obs : World -> A) mv r fields,
        managers r !! mvManager mv = Some fields ->
        registeredDeterminedBy obs fields ->
        readDeterminedBy readMember obs (mvModel mv) ->
        exists result r1,
          validate readMember mv r = Done result r1
          /\ (exists r2, validate readMember mv r1 = Done result r2)
          /\ (forall r',
                registry r' = registry r -> managers r' = managers r ->
                obs (rtWorld r') = obs (rtWorld r) ->
                exists r2, validate readMember mv r' = Done result r2)).
Proof.
  split.
  - intros A obs value model h Hd Hp.
    destruct (@validateValue_same_model A obs value model h Hd Hp)
      as (errors & h1 & Hrun & Hthis & Hobs & Hlater).
    exists errors, h1. split; [done|]. split; [|done]. by apply Hlater.
  - intros A obs mv r fields Hm Hreg Hread.
    destruct (@validate_same_model A obs mv r fields Hm Hreg Hread)
      as (result & r1 & Hrun & Hr & Hmgr & Hobs & Hlater).
    exists result, r1. split; [done|]. split; [|done]. by apply Hlater.
Qed.

End ModelValidatorProperties.

(** * Further properties of the run of [validateValue] *)

Section RunProperties.

Context {World : Type}.
Implicit Types (v : BaseValidator World) (h : Heap World).
Implicit Types (vs rest pre : list (BaseValidator World)).

Lemma Judged_askedIndices name value model i evs m :
  Judged name value model i evs m -> askedIndices evs = [i].
Proof. by destruct 1. Qed.

Lemma Judged_evaluatedIndices name value model i evs m :
  toBoolean value = true ->
  Judged name value model i evs m -> evaluatedIndices evs = [i].
Proof. intros Hv. destruct 1; [congruence|done..]. Qed.

Lemma judgeAll_askedIndices name value model vs :
  forall i w,
    askedIndices (judgeAll name value model i vs w).1.2 = seq i (length vs).
Proof.
  induction vs as [|v vs IH]; intros i w; simpl; [done|].
  pose proof (judge_Judged name value model i v w) as Hj.
  destruct (judge name value model i v w) as [[m evs] w1].
  specialize (IH (S i) w1).
  destruct (judgeAll name value model (S i) vs w1) as [[ms evs'] w2].
  simpl in *. unfold askedIndices in *. rewrite omap_app, IH.
  apply Judged_askedIndices in Hj. unfold askedIndices in Hj.
  by rewrite Hj.
Qed.

Lemma judgeAll_evaluatedIndices name value model vs :
  toBoolean value = true ->
  forall i w,
    evaluatedIndices (judgeAll name value model i vs w).1.2
    = seq i (length vs).
Proof.
  intros Hv. induction vs as [|v vs IH]; intros i w; simpl; [done|].
  pose proof (judge_Judged name value model i v w) as Hj.
  destruct (judge name value model i v w) as [[m evs] w1].
  specialize (IH (S i) w1).
  destruct (judgeAll name value model (S i) vs w1) as [[ms evs'] w2].
  simpl in *. unfold evaluatedIndices in *. rewrite omap_app, IH.
  apply (Judged_evaluatedIndices Hv) in Hj. unfold evaluatedIndices in Hj.
  by rewrite Hj.
Qed.

Lemma judgeAll_index_ge name value model vs i w ev :
  In ev (judgeAll name value model i vs w).1.2 -> i <= indexOf ev.
Proof.
  rewrite judgeAll_In. intros (k & v & _ & Hin).
  assert (indexOf ev = i + k) as ->
    by (eapply Judged_index; [|exact Hin]; apply judge_Judged).
  lia.
Qed.

Lemma judgeAll_sorted name value model vs :
  forall i w,
    StronglySorted le (map indexOf (judgeAll name value model i vs w).1.2).
Proof.
  induction vs as [|v vs IH]; intros i w; simpl; [constructor|].
  pose proof (judge_Judged name value model i v w) as Hj.
  pose proof (fun ev => @judgeAll_index_ge name value model vs (S i)
                          (judge name value model i v w).2 ev) as Hge.
  destruct (judge name value model i v w) as [[m evs] w1].
  specialize (IH (S i) w1). simpl in Hge.
  destruct (judgeAll name value model (S i) vs w1) as [[ms evs'] w2].
  simpl in *. rewrite map_app. apply StronglySorted_app_2; [|by destruct Hj; repeat constructor|done].
  intros x1 x2 Hx1 Hx2.
  apply list_elem_of_In, in_map_iff in Hx1 as (ev1 & <- & Hin1).
  apply list_elem_of_In, in_map_iff in Hx2 as (ev2 & <- & Hin2).
  assert (indexOf ev1 = i) as -> by (eapply Judged_index; eassumption).
  specialize (Hge _ Hin2). lia.
Qed.

(** A chain in two parts. *)
Lemma judgeAll_app name value model pre rest :
  forall i w,
    judgeAll name value model i (pre ++ rest) w
    = let '(ms1, evs1, w1) := judgeAll name value model i pre w in
      let '(ms2, evs2, w2) :=
        judgeAll name value model (i + length pre) rest w1 in
      (ms1 ++ ms2, evs1 ++ evs2, w2).
Proof.
  induction pre as [|v pre IH]; intros i w; simpl.
  { rewrite Nat.add_0_r. by destruct (judgeAll _ _ _ _ rest w) as [[? ?] ?]. }
  destruct (judge name value model i v w) as [[m evs] w1].
  rewrite IH.
  destruct (judgeAll name value model (S i) pre w1) as [[ms1 evs1] w2].
  replace (i + S (length pre)) with (S i + length pre) by lia.
  destruct (judgeAll name value model (S i + length pre) rest w2)
    as [[ms2 evs2] w3].
  by rewrite <- app_assoc.
Qed.

(** The index a chain starts at shows in the log only. *)
Lemma judge_shift name value model i j v w :
  (judge name value model i v w).1.1 = (judge name value model j v w).1.1
  /\ (judge name value model i v w).2 = (judge name value model j v w).2.
Proof.
  unfold judge.
  destruct (validatesEmptyValue v w) as [b w1].
  destruct (negb b && negb (toBoolean value)); [done|].
  destruct (isValid v value model w1) as [[] w2]; [done|].
  destruct (hasCustomMessage v w2) as [[] w3].
  - by destruct (getCustomMessage v w3).
  - by destruct (getMessage v name value w3).
Qed.

Lemma judgeAll_shift name value model vs :
  forall i j w,
    (judgeAll name value model i vs w).1.1
    = (judgeAll name value model j vs w).1.1
    /\ (judgeAll name value model i vs w).2
       = (judgeAll name value model j vs w).2.
Proof.
  induction vs as [|v vs IH]; intros i j w; simpl; [done|].
  destruct (judge_shift name value model i j v w) as [Hm Hw].
  destruct (judge name value model i v w) as [[m evs] w1],
           (judge name value model j v w) as [[m' evs'] w1'].
  simpl in Hm, Hw. subst m' w1'.
  destruct (IH (S i) (S j) w1) as [Hms Hw2].
  destruct (judgeAll name value model (S i) vs w1) as [[ms es] w2],
           (judgeAll name value model (S j) vs w1) as [[ms' es'] w2'].
  simpl in *. by subst.
Qed.

(** Which validators fail does not depend on the display name, when the
    validators are stateless. *)
Lemma judge_failureIndices_stateless name name' value model i v w w' :
  stateless v ->
  failureIndices (judge name value model i v w).1.2
  = failureIndices (judge name' value model i v w').1.2.
Proof.
  intros (H1 & H2 & _). unfold judge.
  specialize (H1 w w').
  destruct (validatesEmptyValue v w) as [b w1],
           (validatesEmptyValue v w') as [b' w1'].
  simpl in H1. subst b'.
  destruct (negb b && negb (toBoolean value)); [done|].
  specialize (H2 value model w1 w1').
  destruct (isValid v value model w1) as [ok w2],
           (isValid v value model w1') as [ok' w2'].
  simpl in H2. subst ok'. destruct ok; [done|].
  destruct (hasCustomMessage v w2) as [[] w3],
           (hasCustomMessage v w2') as [[] w3'];
    repeat match goal with
           | |- context [getCustomMessage v ?x] =>
               destruct (getCustomMessage v x)
           | |- context [getMessage v ?n value ?x] =>
               destruct (getMessage v n value x)
           end; done.
Qed.

Lemma judgeAll_failureIndices_stateless name name' value model vs :
  Forall stateless vs ->
  forall i w w',
    failureIndices (judgeAll name value model i vs w).1.2
    = failureIndices (judgeAll name' value model i vs w').1.2.
Proof.
  induction 1 as [|v vs Hv _ IH]; intros i w w'; simpl; [done|].
  pose proof (@judge_failureIndices_stateless name name' value model i v
                w w' Hv) as Hj.
  destruct (judge name value model i v w) as [[m evs] w1],
           (judge name' value model i v w') as [[m' evs'] w1'].
  specialize (IH (S i) w1 w1').
  destruct (judgeAll name value model (S i) vs w1) as [[ms es] w2],
           (judgeAll name' value model (S i) vs w1') as [[ms' es'] w2'].
  simpl in *. unfold failureIndices in *. by rewrite !omap_app, Hj, IH.
Qed.

Lemma pushed_length evs : length (pushed evs) = length (pushIndices evs).
Proof.
  induction evs as [|[] evs IH]; simpl; try done.
  unfold pushed, pushIndices in *. simpl. by rewrite IH.
Qed.

Lemma omap_id_length_le {A} (l : list (option A)) :
  length (omap id l) <= length l.
Proof. induction l as [|[x|] l IH]; cbn in *; lia. Qed.

Lemma judgeAll_pushIndices_sublist name value model vs :
  forall i w,
    sublist (pushIndices (judgeAll name value model i vs w).1.2)
            (seq i (length vs)).
Proof.
  induction vs as [|v vs IH]; intros i w; simpl; [done|].
  pose proof (judge_Judged name value model i v w) as Hj.
  destruct (judge name value model i v w) as [[m evs] w1].
  specialize (IH (S i) w1).
  destruct (judgeAll name value model (S i) vs w1) as [[ms evs'] w2].
  simpl in *. unfold pushIndices in *. rewrite omap_app.
  destruct Hj; simpl;
    first [by apply sublist_skip | by apply sublist_cons].
Qed.

Lemma judgeAll_neverValidatesEmpty name value model vs :
  toBoolean value = false ->
  Forall neverValidatesEmpty vs ->
  forall i w,
    (judgeAll name value model i vs w).1
    = (replicate (length vs) None,
       imap (fun k _ => EvValidatesEmptyValue (i + k) false) vs).
Proof.
  intros Hv. induction 1 as [|v vs Hn _ IH]; intros i w; simpl; [done|].
  pose proof (@judge_neverValidatesEmpty World name value model i v w Hn Hv)
    as Hj.
  destruct (judge name value model i v w) as [[m evs] w1].
  simpl in Hj. injection Hj as -> ->.
  specialize (IH (S i) w1).
  destruct (judgeAll name value model (S i) vs w1) as [[ms evs'] w2].
  simpl in *. injection IH as -> ->. rewrite Nat.add_0_r. do 2 f_equal.
  apply imap_ext. intros k x _. simpl. f_equal. lia.
Qed.

Local Ltac pick_event :=
  simpl; repeat (first [left; reflexivity | right]).

Local Ltac no_such_event H :=
  simpl in H;
  repeat (destruct H as [H|H]; [discriminate H|]); contradiction.

(** ** What every run does *)

(** X1.  [validatesEmptyValue()] is called once on every validator of the
    chain, in registration order, in every run: the value being empty or
    not does not matter, and neither does any earlier failure. *)
Theorem validatesEmptyValue_asked_of_every_validator value model h :
  exists errors h' evs,
    validateValue value model h = Done errors h'
    /\ calls h' = calls h ++ evs
    /\ askedIndices evs = seq 0 (length (validators (this h))).
Proof.
  rewrite validateValue_judgeAll.
  pose proof (judgeAll_askedIndices (fieldName (this h)) value model
                (validators (this h)) 0 (world h)) as Hasked.
  destruct (judgeAll _ _ _ _ _ _) as [[ms evs] w]. simpl in *.
  by eexists _, _, evs.
Qed.

(** X2.  For a value that is not empty, [isValid] is called once on every
    validator of the chain, in registration order: no validator is skipped
    and no failure stops the loop. *)
Theorem truthy_value_evaluates_every_validator value model h :
  toBoolean value = true ->
  exists errors h' evs,
    validateValue value model h = Done errors h'
    /\ calls h' = calls h ++ evs
    /\ evaluatedIndices evs = seq 0 (length (validators (this h))).
Proof.
  intros Hv. rewrite validateValue_judgeAll.
  pose proof (@judgeAll_evaluatedIndices (fieldName (this h)) value
                model (validators (this h)) Hv 0 (world h)) as Heval.
  destruct (judgeAll _ _ _ _ _ _) as [[ms evs] w]. simpl in *.
  by eexists _, _, evs.
Qed.

(** X3.  The members that find a message are consulted only after a
    failure: a read of [hasCustomMessage], a call of [getCustomMessage] or
    [getMessage] and a push happen for a validator only if its [isValid]
    returned false in this run, on this value and model. *)
Theorem messages_resolved_only_on_failure value model h :
  exists errors h' evs,
    validateValue value model h = Done errors h'
    /\ calls h' = calls h ++ evs
    /\ forall ev,
         In ev evs -> consultsMessage ev ->
         In (EvIsValid (indexOf ev) value model false) evs.
Proof.
  destruct (validateValue_trace value model h) as (errors & w & Hrun & _).
  eexists errors, _, (trace value model h).
  split; [exact Hrun|]. split; [done|].
  intros ev Hin Hmsg.
  destruct (@trace_index_lt World value model h _ Hin) as [v Hv].
  remember (indexOf ev) as i eqn:Hi.
  destruct (@trace_at World value model h i v Hv) as (evs & m & HJ & Hiff).
  apply Hiff in Hin; [|done].
  apply (Hiff (EvIsValid i value model false)); [done|].
  destruct HJ as [_|emptyOk _|emptyOk m _|emptyOk m _].
  - destruct Hin as [Heq|[]]. rewrite <- Heq in Hmsg. destruct Hmsg.
  - destruct Hin as [Heq|[Heq|[]]]; rewrite <- Heq in Hmsg; destruct Hmsg.
  - pick_event.
  - pick_event.
Qed.

(** X4.  Each validator reports at most once and the reports come in
    registration order: the turns that pushed form a sublist of
    [0, 1, ..., n-1], and the list returned has one entry per such turn, so
    never more entries than the chain has validators. *)
Theorem at_most_one_message_per_validator value model h :
  exists errors h' evs,
    validateValue value model h = Done errors h'
    /\ calls h' = calls h ++ evs
    /\ sublist (pushIndices evs) (seq 0 (length (validators (this h))))
    /\ length errors = length (pushIndices evs)
    /\ length errors <= length (validators (this h)).
Proof.
  rewrite validateValue_judgeAll.
  pose proof (judgeAll_pushIndices_sublist (fieldName (this h)) value model
                (validators (this h)) 0 (world h)) as Hsub.
  pose proof (judgeAll_pushed (fieldName (this h)) value model
                (validators (this h)) 0 (world h)) as Hpushed.
  pose proof (judgeAll_length (fieldName (this h)) value model
                (validators (this h)) 0 (world h)) as Hlen.
  destruct (judgeAll _ _ _ _ _ _) as [[ms evs] w]. simpl in *.
  eexists _, _, evs. split; [reflexivity|]. split; [done|].
  split; [done|]. split.
  - by rewrite <- Hpushed, pushed_length.
  - rewrite <- Hlen. apply omap_id_length_le.
Qed.

(** X5.  The loop finishes with one validator before it turns to the next
    and never comes back: the indices of the logged events never
    decrease. *)
Theorem log_follows_registration_order value model h :
  exists errors h' evs,
    validateValue value model h = Done errors h'
    /\ calls h' = calls h ++ evs
    /\ StronglySorted le (map indexOf evs).
Proof.
  rewrite validateValue_judgeAll.
  pose proof (judgeAll_sorted (fieldName (this h)) value model
                (validators (this h)) 0 (world h)) as Hsorted.
  destruct (judgeAll _ _ _ _ _ _) as [[ms evs] w]. simpl in *.
  by eexists _, _, evs.
Qed.

(** X6.  Whether a validator is evaluated is decided by its own answer and
    the value alone: after [validatesEmptyValue()] returned [emptyOk] for
    it, [isValid] is called on it exactly when [emptyOk] is true or the
    value is not empty. *)
Theorem validator_evaluated_iff value model h :
  exists errors h' evs,
    validateValue value model h = Done errors h'
    /\ calls h' = calls h ++ evs
    /\ forall i emptyOk,
         In (EvValidatesEmptyValue i emptyOk) evs ->
         ((exists r, In (EvIsValid i value model r) evs)
          <-> emptyOk = true \/ toBoolean value = true).
Proof.
  destruct (validateValue_trace value model h) as (errors & w & Hrun & _).
  eexists errors, _, (trace value model h).
  split; [exact Hrun|]. split; [done|].
  intros i emptyOk Hasked.
  destruct (@trace_index_lt World value model h _ Hasked) as [v Hv].
  simpl in Hv.
  destruct (@trace_at World value model h i v Hv) as (evs & m & HJ & Hiff).
  apply Hiff in Hasked; [|done].
  assert (Hev : (exists r, In (EvIsValid i value model r) evs)
                <-> emptyOk = true \/ toBoolean value = true).
  { destruct HJ as [Hempty|b Hb|b m Hb|b m Hb].
    - destruct Hasked as [[= <-]|[]]. split.
      + intros [r Hr]. no_such_event Hr.
      + intros [?|?]; congruence.
    - destruct Hasked as [[= ->]|Hc]; [|no_such_event Hc]. split.
      + intros _. destruct emptyOk; [by left|right].
        simpl in Hb. by apply negb_false_iff in Hb.
      + intros _. exists true. pick_event.
    - destruct Hasked as [[= ->]|Hc]; [|no_such_event Hc]. split.
      + intros _. destruct emptyOk; [by left|right].
        simpl in Hb. by apply negb_false_iff in Hb.
      + intros _. exists false. pick_event.
    - destruct Hasked as [[= ->]|Hc]; [|no_such_event Hc]. split.
      + intros _. destruct emptyOk; [by left|right].
        simpl in Hb. by apply negb_false_iff in Hb.
      + intros _. exists false. pick_event. }
  rewrite <- Hev. split; intros [r Hr]; exists r; by apply Hiff.
Qed.

(** X7.  An empty value is valid for a chain without a validator that
    looks at empty values: the result is the empty list, and each validator
    was asked [validatesEmptyValue()] and nothing else. *)
Theorem empty_value_without_required_is_valid value model h :
  toBoolean value = false ->
  Forall neverValidatesEmpty (validators (this h)) ->
  exists h',
    validateValue value model h = Done [] h'
    /\ calls h'
       = calls h ++ imap (fun i _ => EvValidatesEmptyValue i false)
                         (validators (this h)).
Proof.
  intros Hv Hall. rewrite validateValue_judgeAll.
  pose proof (@judgeAll_neverValidatesEmpty (fieldName (this h)) value model
                (validators (this h)) Hv Hall 0 (world h)) as Hj.
  destruct (judgeAll _ _ _ _ _ _) as [[ms evs] w]. simpl in *.
  injection Hj as -> ->.
  exists {| this := this h; world := w;
            calls := calls h
                     ++ imap (fun i _ => EvValidatesEmptyValue i false)
                             (validators (this h)) |}.
  split; [|reflexivity].
  f_equal. clear. by induction (length (validators (this h))).
Qed.

(** ** How chains and calls compose *)

(** X8.  The errors of a chain in two parts are the errors of the first
    part followed by the errors of the second part, run in the world the
    first part left.  In particular a validator added with [addValidator]
    changes nothing of what the validators before it report. *)
Theorem validateValue_app name pre rest value model (w : World) log :
  exists errors1 h1 errors2 h2 h3,
    validateValue value model (heapOf name pre w log) = Done errors1 h1
    /\ validateValue value model (heapOf name rest (world h1) (calls h1))
       = Done errors2 h2
    /\ validateValue value model (heapOf name (pre ++ rest) w log)
       = Done (errors1 ++ errors2) h3
    /\ world h3 = world h2.
Proof.
  destruct (judgeAll name value model 0 pre w) as [[ms1 evs1] w1] eqn:H1.
  destruct (judgeAll name value model 0 rest w1) as [[ms2 evs2] w2] eqn:H2.
  destruct (judgeAll name value model (length pre) rest w1)
    as [[ms3 evs3] w3] eqn:H3.
  destruct (judgeAll_shift name value model rest (length pre) 0 w1)
    as [Hms Hw].
  rewrite H2, H3 in Hms, Hw. simpl in Hms, Hw. subst ms3 w3.
  exists (omap id ms1), (heapOf name pre w1 (log ++ evs1)),
         (omap id ms2), (heapOf name rest w2 ((log ++ evs1) ++ evs2)),
         (heapOf name (pre ++ rest) w2 (log ++ evs1 ++ evs3)).
  split; [|split; [|split; [|reflexivity]]].
  - rewrite validateValue_judgeAll. simpl. by rewrite H1.
  - rewrite validateValue_judgeAll. simpl. by rewrite H2.
  - rewrite validateValue_judgeAll. simpl.
    rewrite judgeAll_app, H1. simpl. rewrite H3.
    by rewrite omap_app.
Qed.

(** X9.  What a sequence of calls leaves of a new [FieldOptions] is fixed
    by its last [setFieldName] and by its [addValidator] calls in order:
    where [setFieldName] stands among the [addValidator] calls, and any
    getter or [validateValue] call in between, makes no difference to the
    object. *)
Theorem call_order_is_irrelevant (cs cs' : list (Call (World := World)))
    (w w' : World) :
  lastSetFieldName cs = lastSetFieldName cs' ->
  addedValidators cs = addedValidators cs' ->
  exists h h',
    performAll cs (fresh_heap w) = Done tt h
    /\ performAll cs' (fresh_heap w') = Done tt h'
    /\ this h = this h'.
Proof.
  intros Hname Hvs.
  destruct (performAll_this cs (fresh_heap w)) as (h & Hrun & Hn & Hv).
  destruct (performAll_this cs' (fresh_heap w')) as (h' & Hrun' & Hn' & Hv').
  exists h, h'. split; [done|]. split; [done|].
  simpl in *. rewrite <- Hname in Hn'. rewrite <- Hvs in Hv'.
  destruct (this h), (this h'). simpl in *. congruence.
Qed.

(** X10.  With stateless validators the display name has no say in which
    validators fail: under any other name the same turns of the loop push
    a message, so the result has the same length and is empty for the one
    name exactly when it is for the other. *)
Theorem display_name_does_not_change_validity value model h name :
  Forall stateless (validators (this h)) ->
  exists errors h1 evs errors' h2 evs',
    validateValue value model h = Done errors h1
    /\ calls h1 = calls h ++ evs
    /\ validateValue value model
         (heapOf name (validators (this h)) (world h) (calls h))
       = Done errors' h2
    /\ calls h2 = calls h ++ evs'
    /\ pushIndices evs = pushIndices evs'
    /\ length errors = length errors'.
Proof.
  intros Hs. rewrite !validateValue_judgeAll. simpl.
  pose proof (@judgeAll_failureIndices_stateless (fieldName (this h))
                name value model (validators (this h)) Hs 0
                (world h) (world h)) as Hfail.
  rewrite <- !judgeAll_pushIndices in Hfail.
  pose proof (judgeAll_pushed (fieldName (this h)) value model
                (validators (this h)) 0 (world h)) as Hp.
  pose proof (judgeAll_pushed name value model
                (validators (this h)) 0 (world h)) as Hp'.
  destruct (judgeAll (fieldName (this h)) value model 0 _ _)
    as [[ms evs] w1],
           (judgeAll name value model 0 _ _) as [[ms' evs'] w2].
  simpl in *.
  eexists _, _, evs, _, _, evs'.
  split; [reflexivity|]. split; [done|]. split; [reflexivity|].
  split; [done|]. split; [done|].
  by rewrite <- Hp, <- Hp', !pushed_length, Hfail.
Qed.

End RunProperties.

(** * Further properties of the decorator *)

Section DecoratorProperties.

Context {World : Type}.
Implicit Types (r : Runtime World) (fields : ValidationManager World).

Lemma fieldNameOf_get type manager r r1 field x :
  ValidationManager_get type r = Done manager r1 ->
  fieldNameOf x field r1 = fieldNameOf x field r.
Proof.
  destruct (ValidationManager_get_registers type r)
    as (y & r' & -> & _ & _ & Hold & Hnew & _).
  intros [= <- <-]. unfold fieldNameOf.
  destruct (managers r !! x) as [fields|] eqn:Hx.
  - by rewrite (Hold _ _ Hx).
  - destruct (managers r' !! x) as [fields|] eqn:Hx'; [|done].
    destruct (Hnew _ _ Hx') as [Hc| ->]; [|done].
    rewrite Hx in Hc. discriminate Hc.
Qed.

(** X11.  Applied with a bound that passes the constructor, the decorator
    ends normally and adds one validator, built from the bound and the
    message it was given, at the end of the chain of the decorated property
    in the manager of the class.  Every other chain of every manager is as
    before, the display name of the property is kept (["Field"] if the
    property is new), and no validator member is called. *)
Theorem MinLength_registers_one_validator minLength n message targetClass
    property r :
  wellFormed r ->
  positiveInteger minLength = Some n ->
  exists manager r',
    MinLength minLength message targetClass property r = Done tt r'
    /\ ValidationManager_get targetClass r' = Done manager r'
    /\ validatorsOf manager property r'
       = validatorsOf manager property r ++ [MinLengthValidator n message]
    /\ (forall x field,
          (x, field) <> (manager, property) ->
          validatorsOf x field r' = validatorsOf x field r)
    /\ fieldNameOf manager property r'
       = Some (default "Field" (fieldNameOf manager property r))
    /\ rtWorld r' = rtWorld r /\ rtCalls r' = rtCalls r.
Proof.
  intros Hwf Hn.
  destruct (ValidationManager_get_registers targetClass r)
    as (manager & r1 & Hget & Hreg & _ & _ & _ & Hwf1 & Hw & Hc).
  destruct (Hwf1 Hwf _ _ Hreg) as [fields Hm].
  pose proof (@ValidationManager_addValidator_run World manager property
                (MinLengthValidator n message) r1 fields Hm) as Hrun.
  eexists manager, _.
  split; [by rewrite (@MinLength_unfold World minLength message targetClass
                        property r manager r1 Hget), Hn|].
  split; [by apply ValidationManager_get_hit|].
  split; [|split; [|split; [|by split]]].
  - rewrite (@validatorsOf_addValidator World manager property _ r1 _
               property Hrun), String.eqb_refl.
    f_equal. by eapply validatorsOf_get.
  - intros x field Hne.
    rewrite <- (@validatorsOf_get World targetClass manager r r1 field x Hget).
    destruct (decide (x = manager)) as [->|Hx].
    + rewrite (@validatorsOf_addValidator World manager property _ r1 _
                 field Hrun).
      destruct (String.eqb property field) eqn:Heq; [|done].
      apply String.eqb_eq in Heq as ->. by destruct Hne.
    + unfold validatorsOf. simpl. by rewrite lookup_insert_ne.
  - rewrite <- (@fieldNameOf_get targetClass manager r r1 property
                  manager Hget).
    unfold fieldNameOf. simpl.
    rewrite Hm, lookup_insert_eq, lookupField_storeField, String.eqb_refl.
    simpl. by destruct (lookupField property fields).
Qed.

(** X12.  A decoration that is refused has already fetched the manager of
    the class: the class has a manager afterwards, a later
    [ValidationManager.get] returns it, and where the class had none before
    the manager is a new, empty one. *)
Theorem rejected_MinLength_leaves_a_manager minLength message targetClass
    property r :
  nonPositive minLength ->
  exists what manager r',
    MinLength minLength message targetClass property r
    = Threw (ConfigurationError what) r'
    /\ ValidationManager_get targetClass r' = Done manager r'
    /\ (registry r !! targetClass = None ->
        managers r !! manager = None /\ managers r' !! manager = Some []).
Proof.
  intros Hn%positiveInteger_nonPositive.
  destruct (ValidationManager_get_registers targetClass r)
    as (manager & r1 & Hget & Hreg & _).
  rewrite (@MinLength_unfold World minLength message targetClass property r
             manager r1 Hget), Hn.
  eexists _, manager, r1. split; [reflexivity|].
  split; [by apply ValidationManager_get_hit|].
  intros Hnone. unfold ValidationManager_get in Hget. rewrite Hnone in Hget.
  injection Hget as <- <-. simpl. split.
  - apply not_elem_of_dom, is_fresh.
  - by rewrite lookup_insert_eq.
Qed.

End DecoratorProperties.

(** * Worked instances *)

Section Instances.

Import Example.

(** The expectations of the integration tests that concern [Required] and
    [MinLength]. *)
Example username_empty :
  registerAndValidateField (instance "" "") "username"
  = Some ["Field is required"].
Proof. vm_compute. reflexivity. Qed.

Example username_given :
  registerAndValidateField (instance "bob001" "") "username" = Some [].
Proof. vm_compute. reflexivity. Qed.

Example password_too_short :
  registerAndValidateField (instance "bob001" "a") "password"
  = Some ["Password must be at least 10 characters long"].
Proof. vm_compute. reflexivity. Qed.

Example password_long_enough :
  registerAndValidateField (instance "bob001" "1234567890") "password"
  = Some [].
Proof. vm_compute. reflexivity. Qed.

Example unknown_field :
  registerAndValidateField (instance "bob001" "a") "nickname" = Some [].
Proof. vm_compute. reflexivity. Qed.

(** Several failures of one field are all reported, in order. *)
Example password_two_failures :
  exists h,
    validateValue (JsString "a") model (passwordHeap (instance "" "a"))
    = Done ["Password must be at least 10 characters long"; "Too short"] h.
Proof. eexists. vm_compute. reflexivity. Qed.

(** ** The theorems at work *)

Lemma validateValue_skips_on_empty_witness :
  toBoolean (JsString "") = false
  /\ exists errors h' evs,
       validateValue (JsString "") model (passwordHeap (instance "" ""))
       = Done errors h'
       /\ calls h' = calls (passwordHeap (instance "" "")) ++ evs
       /\ errors = pushed evs
       /\ In (EvValidatesEmptyValue 0 false) evs
       /\ forall ev, In ev evs -> indexOf ev = 0 ->
                     ev = EvValidatesEmptyValue 0 false.
Proof.
  split; [reflexivity|].
  destruct (@validateValue_skips_on_empty World (JsString "") model
              (passwordHeap (instance "" "")) eq_refl)
    as (errors & h' & evs & Hrun & Hcalls & Herrors & Hasked & Honly).
  exists errors, h', evs.
  assert (Hcall : In (EvValidatesEmptyValue 0 false) evs).
  { apply (Hasked 0 (MinLengthValidator 10 None)).
    - reflexivity.
    - intros w. reflexivity. }
  repeat (split; [assumption|]).
  exact (Honly 0 Hcall).
Defined.


Lemma ValidationManager_get_is_a_singleton_witness :
  wellFormed (emptyRuntime (instance "" ""))
  /\ exists manager r1,
       ValidationManager_get RegistrationModel
         (emptyRuntime (instance "" "")) = Done manager r1
       /\ ValidationManager_get RegistrationModel r1 = Done manager r1
       /\ (forall r2, rtc Step r1 r2 ->
                      ValidationManager_get RegistrationModel r2
                      = Done manager r2)
       /\ (forall d ds,
             Forall validBound (d :: ds) ->
             exists r2,
               decorate RegistrationModel (d :: ds)
                        (emptyRuntime (instance "" "")) = Done tt r2
               /\ ValidationManager_get RegistrationModel r2
                  = Done manager r2
               /\ forall property,
                    validatorsOf manager property r2
                    = validatorsOf manager property
                                   (emptyRuntime (instance "" ""))
                      ++ registeredBy property (d :: ds)).
Proof.
  assert (Hwf : wellFormed (emptyRuntime (instance "" ""))).
  { intros type manager H. simpl in H. rewrite lookup_empty in H.
    discriminate H. }
  split; [exact Hwf|].
  apply (@ValidationManager_get_is_a_singleton World RegistrationModel
           (emptyRuntime (instance "" ""))).
  exact Hwf.
Defined.

Lemma MinLength_rejects_non_positive_bound_witness :
  nonPositive (ofZ 0)
  /\ exists what r',
       MinLength (ofZ 0) None RegistrationModel "password"
                 (emptyRuntime (instance "" ""))
       = Threw (ConfigurationError what) r'
       /\ forall manager field,
            validatorsOf manager field r'
            = validatorsOf manager field (emptyRuntime (instance "" "")).
Proof.
  assert (Hzero : nonPositive (ofZ 0)) by (right; reflexivity).
  split; [exact Hzero|].
  apply (@MinLength_rejects_non_positive_bound World (ofZ 0) None
           RegistrationModel "password" (emptyRuntime (instance "" ""))).
  exact Hzero.
Defined.

Lemma determinedBy_whole_world (v : BaseValidator World) :
  determinedBy (fun w : World => w) v.
Proof. intros w w' Heq. simpl in Heq. subst w'. repeat split. Qed.

Lemma PredicateValidator_preserves {A} (obs : World -> A) message predicate :
  preserves obs (PredicateValidator message predicate).
Proof. by repeat split. Qed.

Lemma fieldsWithConfirmation_determined :
  registeredDeterminedBy (fun w : World => w) fieldsWithConfirmation.
Proof.
  intros name fo. unfold fieldsWithConfirmation. vm_compute lookupField.
  repeat (match goal with
          | |- (if ?b then _ else _) = _ -> _ => destruct b
          end);
    intros [= <-]; split; simpl;
    repeat (apply List.Forall_cons;
            [first [apply determinedBy_whole_world | by repeat split]|]);
    apply List.Forall_nil.
Qed.

Lemma no_validators_no_errors_witness :
  validateValue (JsString "x") model (fresh_heap (instance "" ""))
  = Done [] (fresh_heap (instance "" ""))
  /\ exists r',
       validateField readMember {| mvModel := model; mvManager := 0 |}
                     "nickname" registered = Done [] r'
       /\ registry r' = registry registered
       /\ managers r' = managers registered.
Proof.
  destruct (@no_validators_no_errors World readMember) as [Hvalue Hfield].
  split.
  - apply Hvalue. reflexivity.
  - apply (Hfield {| mvModel := model; mvManager := 0 |} "nickname"
                  registered registeredFields).
    + reflexivity.
    + vm_compute. exact I.
Defined.

Lemma display_name_last_write_wins_witness :
  (exists h h',
      performAll [CallSetFieldName "Secret";
                  CallAddValidator (RequiredValidator None);
                  CallSetFieldName "Password"]
                 (fresh_heap (instance "" "")) = Done tt h
      /\ getFieldName h = Done "Password" h
      /\ validateValue (JsString "") model h
         = Done ["Password is required"] h')
  /\ (exists h h',
        performAll [CallAddValidator (RequiredValidator None)]
                   (fresh_heap (instance "" "")) = Done tt h
        /\ getFieldName h = Done "Field" h
        /\ validateValue (JsString "") model h
           = Done ["Field is required"] h').
Proof.
  split.
  - destruct (@display_name_last_write_wins World
                [CallSetFieldName "Secret";
                 CallAddValidator (RequiredValidator None);
                 CallSetFieldName "Password"]
                (instance "" "") (JsString "") model)
      as (h & errors & h' & evs & Hrun & Hname & Hval & _ & _ & Herr & _).
    exists h, h'. split; [exact Hrun|]. split; [exact Hname|].
    rewrite Hval. f_equal. rewrite Herr. reflexivity.
  - destruct (@display_name_last_write_wins World
                [CallAddValidator (RequiredValidator None)]
                (instance "" "") (JsString "") model)
      as (h & errors & h' & evs & Hrun & Hname & Hval & _ & _ & Herr & _).
    exists h, h'. split; [exact Hrun|]. split; [exact Hname|].
    rewrite Hval. f_equal. rewrite Herr. reflexivity.
Defined.

Lemma validation_is_idempotent_witness :
  (exists h1 h2,
      validateValue (JsString "abd") model
        {| this := confirmOptions;
           world := instanceWithConfirmation "abc" "abd"; calls := [] |}
      = Done ["Passwords must match"] h1
      /\ validateValue (JsString "abd") model h1
         = Done ["Passwords must match"] h2)
  /\ (exists result r1 r2,
        validate readMember {| mvModel := model; mvManager := 0 |}
                 registeredWithConfirmation = Done result r1
        /\ validate readMember {| mvModel := model; mvManager := 0 |} r1
           = Done result r2
        /\ map field (resultErrors result) = ["password"; "confirmPassword"]).
Proof.
  destruct (@validation_is_idempotent World readMember) as [Hvalue Hmodel].
  split.
  - destruct (Hvalue World (fun w => w) (JsString "abd") model
                {| this := confirmOptions;
                   world := instanceWithConfirmation "abc" "abd";
                   calls := [] |})
      as (errors & h1 & Hrun & [h2 Hagain] & _).
    + apply List.Forall_cons; [apply determinedBy_whole_world|].
      apply List.Forall_nil.
    + apply List.Forall_cons; [apply PredicateValidator_preserves|].
      apply List.Forall_nil.
    + assert (Herrors : errors = ["Passwords must match"]).
      { vm_compute in Hrun. by injection Hrun as <- _. }
      subst errors. by exists h1, h2.
  - destruct (Hmodel World (fun w => w)
                {| mvModel := model; mvManager := 0 |}
                registeredWithConfirmation fieldsWithConfirmation)
      as (result & r1 & Hrun & [r2 Hagain] & _).
    + reflexivity.
    + apply fieldsWithConfirmation_determined.
    + intros name. split; [|reflexivity].
      intros w w' Heq. simpl in Heq. by subst w'.
    + exists result, r1, r2. split; [exact Hrun|]. split; [exact Hagain|].
      assert (Hfields :
                match validate readMember
                        {| mvModel := model; mvManager := 0 |}
                        registeredWithConfirmation with
                | Done res _ =>
                    map field (resultErrors res)
                    = ["password"; "confirmPassword"]
                | _ => False
                end) by (vm_compute; reflexivity).
      by rewrite Hrun in Hfields.
Defined.

Lemma validateValue_only_reads_witness :
  exists errors h',
    validateValue (JsString "a") model (passwordHeap (instance "" "a"))
    = Done errors h'
    /\ this h' = passwordOptions
    /\ world h' "password" = JsString "a".
Proof.
  destruct (@validateValue_only_reads World (JsString "a") model
              (passwordHeap (instance "" "a")))
    as (errors & h' & evs & Hrun & Hthis & _ & _ & _ & Hframe).
  exists errors, h'. split; [exact Hrun|]. split; [exact Hthis|].
  apply (Hframe JsValue (fun w => w "password")).
  repeat constructor; apply builtin_preserves.
Defined.

End Instances.

(** * Further worked instances *)

Section MoreInstances.

Import Example.

Lemma truthy_value_evaluates_every_validator_witness :
  toBoolean (JsString "a") = true
  /\ exists errors h' evs,
       validateValue (JsString "a") model (passwordHeap (instance "" "a"))
       = Done errors h'
       /\ calls h' = calls (passwordHeap (instance "" "a")) ++ evs
       /\ evaluatedIndices evs = [0; 1; 2].
Proof.
  split; [reflexivity|].
  apply (@truthy_value_evaluates_every_validator World (JsString "a") model
           (passwordHeap (instance "" "a"))).
  reflexivity.
Defined.

Lemma messages_resolved_only_on_failure_witness :
  exists errors h' evs,
    validateValue (JsString "ab") model (passwordHeap (instance "" "ab"))
    = Done errors h'
    /\ In (EvGetCustomMessage 1 "Too short") evs
    /\ In (EvIsValid 1 (JsString "ab") model false) evs.
Proof.
  destruct (@messages_resolved_only_on_failure World (JsString "ab") model
              (passwordHeap (instance "" "ab")))
    as (errors & h' & evs & Hrun & Hcalls & Hlazy).
  exists errors, h', evs.
  assert (Hin : In (EvGetCustomMessage 1 "Too short") evs).
  { vm_compute in Hrun. injection Hrun as _ Hh. subst h'.
    simpl in Hcalls. subst evs. simpl. auto 20. }
  split; [exact Hrun|]. split; [exact Hin|].
  exact (Hlazy _ Hin I).
Defined.

Lemma validator_evaluated_iff_witness :
  exists errors h' evs,
    validateValue (JsString "") model (passwordHeap (instance "" ""))
    = Done errors h'
    /\ In (EvValidatesEmptyValue 2 true) evs
    /\ exists r, In (EvIsValid 2 (JsString "") model r) evs.
Proof.
  destruct (@validator_evaluated_iff World (JsString "") model
              (passwordHeap (instance "" "")))
    as (errors & h' & evs & Hrun & Hcalls & Hrule).
  exists errors, h', evs.
  assert (Hin : In (EvValidatesEmptyValue 2 true) evs).
  { vm_compute in Hrun. injection Hrun as _ Hh. subst h'.
    simpl in Hcalls. subst evs. simpl. auto 20. }
  split; [exact Hrun|]. split; [exact Hin|].
  apply (Hrule 2 true Hin). left. reflexivity.
Defined.

Lemma empty_value_without_required_is_valid_witness :
  toBoolean JsNull = false
  /\ exists h',
       validateValue JsNull model
         (heapOf "Password" [MinLengthValidator 10 None;
                             MinLengthValidator 3 (Some "Too short")]
                 (instance "" "") [])
       = Done [] h'
       /\ calls h' = [EvValidatesEmptyValue 0 false;
                      EvValidatesEmptyValue 1 false].
Proof.
  split; [reflexivity|].
  apply (@empty_value_without_required_is_valid World JsNull model
           (heapOf "Password" [MinLengthValidator 10 None;
                               MinLengthValidator 3 (Some "Too short")]
                   (instance "" "") [])).
  - reflexivity.
  - repeat constructor.
Defined.

Lemma call_order_is_irrelevant_witness :
  exists h h',
    performAll [CallSetFieldName "Password";
                CallAddValidator (MinLengthValidator 10 None);
                CallAddValidator (RequiredValidator None)]
               (fresh_heap (instance "" "")) = Done tt h
    /\ performAll [CallAddValidator (MinLengthValidator 10 None);
                   CallSetFieldName "Secret";
                   CallValidateValue (JsString "a") model;
                   CallAddValidator (RequiredValidator None);
                   CallSetFieldName "Password"]
                  (fresh_heap (instance "" "a")) = Done tt h'
    /\ this h = this h'.
Proof.
  apply (@call_order_is_irrelevant World
           [CallSetFieldName "Password";
            CallAddValidator (MinLengthValidator 10 None);
            CallAddValidator (RequiredValidator None)]
           [CallAddValidator (MinLengthValidator 10 None);
            CallSetFieldName "Secret";
            CallValidateValue (JsString "a") model;
            CallAddValidator (RequiredValidator None);
            CallSetFieldName "Password"]
           (instance "" "") (instance "" "a")).
  - reflexivity.
  - reflexivity.
Defined.

Lemma display_name_does_not_change_validity_witness :
  exists errors h1 evs errors' h2 evs',
    validateValue (JsString "a") model (passwordHeap (instance "" "a"))
    = Done errors h1
    /\ calls h1 = calls (passwordHeap (instance "" "a")) ++ evs
    /\ validateValue (JsString "a") model
         (heapOf "Secret" (validators passwordOptions) (instance "" "a") [])
       = Done errors' h2
    /\ calls h2 = calls (passwordHeap (instance "" "a")) ++ evs'
    /\ pushIndices evs = pushIndices evs'
    /\ length errors = length errors'.
Proof.
  apply (@display_name_does_not_change_validity World (JsString "a") model
           (passwordHeap (instance "" "a")) "Secret").
  repeat constructor; apply builtin_stateless.
Defined.

Lemma MinLength_registers_one_validator_witness :
  wellFormed (emptyRuntime (instance "" ""))
  /\ positiveInteger (ofZ 12) = Some 12
  /\ exists manager r',
       MinLength (ofZ 12) (Some "Longer") RegistrationModel "password"
                 (emptyRuntime (instance "" "")) = Done tt r'
       /\ ValidationManager_get RegistrationModel r' = Done manager r'
       /\ validatorsOf manager "password" r'
          = validatorsOf manager "password" (emptyRuntime (instance "" ""))
            ++ [MinLengthValidator 12 (Some "Longer")]
       /\ (forall x field,
             (x, field) <> (manager, "password") ->
             validatorsOf x field r'
             = validatorsOf x field (emptyRuntime (instance "" "")))
       /\ fieldNameOf manager "password" r'
          = Some (default "Field"
                          (fieldNameOf manager "password"
                                       (emptyRuntime (instance "" ""))))
       /\ rtWorld r' = rtWorld (emptyRuntime (instance "" ""))
       /\ rtCalls r' = rtCalls (emptyRuntime (instance "" "")).
Proof.
  assert (Hwf : wellFormed (emptyRuntime (instance "" ""))).
  { intros type manager H. simpl in H. rewrite lookup_empty in H.
    discriminate H. }
  split; [exact Hwf|]. split; [reflexivity|].
  apply (@MinLength_registers_one_validator World (ofZ 12) 12
           (Some "Longer") RegistrationModel "password"
           (emptyRuntime (instance "" ""))).
  - exact Hwf.
  - reflexivity.
Defined.

Lemma rejected_MinLength_leaves_a_manager_witness :
  nonPositive (ofZ (-1))
  /\ exists what manager r',
       MinLength (ofZ (-1)) None RegistrationModel "password"
                 (emptyRuntime (instance "" ""))
       = Threw (ConfigurationError what) r'
       /\ ValidationManager_get RegistrationModel r' = Done manager r'
       /\ (registry (emptyRuntime (instance "" "")) !! RegistrationModel
           = None ->
           managers (emptyRuntime (instance "" "")) !! manager = None
           /\ managers r' !! manager = Some []).
Proof.
  assert (Hneg : nonPositive (ofZ (-1))) by (left; reflexivity).
  split; [exact Hneg|].
  apply (@rejected_MinLength_leaves_a_manager World (ofZ (-1)) None
           RegistrationModel "password" (emptyRuntime (instance "" ""))).
  exact Hneg.
Defined.

End MoreInstances.
